(** * Telegram to Discord bridge: the orchestration engine

    A shallow embedding of [bridge/core.py] (class [Bridge]) and of
    [discord_handler.py], followed by the properties of the engine:
    routing decisions, delivery and the mapping store, edit and delete
    handling, and the outage-recovery loop. *)

From Stdlib Require Import ZArith Ascii String List Lia.
From stdpp Require Import base option list sorting gmap strings.

Local Open Scope string_scope.
Local Open Scope Z_scope.
Local Open Scope list_scope.

(** ** Python values used by the engine *)

(** What [str.lower] does to a string of ASCII characters: the letters A to Z
    become a to z.  The engine takes [str.lower] itself as a collaborator
    ([str_lower] below); this function stands for it in the concrete runs,
    whose strings are all ASCII. *)
Definition lower_ascii (c : ascii) : ascii :=
  let n := nat_of_ascii c in
  if (Nat.leb 65 n && Nat.leb n 90)%bool then ascii_of_nat (n + 32) else c.

Fixpoint ascii_lower (s : string) : string :=
  match s with
  | EmptyString => EmptyString
  | String c r => String (lower_ascii c) (ascii_lower r)
  end.

(** The exceptions the engine meets.  [NotFound] and [Forbidden] are
    subclasses of discord's [HTTPException]; every exception listed here is a
    subclass of [Exception] (task cancellation and interpreter exit are not
    modelled). *)
Inductive exn : Type :=
  | NotFound
  | Forbidden
  | HTTPException
  | UnboundLocalError (name : string)
  | AttributeError (attr : string)
  | IndexError
  | TypeError (what : string)
  | OtherError (what : string).

Inductive exn_class : Type := CNotFound | CForbidden | CHTTPException | CException.

(** [isinstance(e, cls)] for the classes named in the [except] clauses. *)
Definition isinstance (e : exn) (c : exn_class) : bool :=
  match c, e with
  | CException, _ => true
  | CHTTPException, (NotFound | Forbidden | HTTPException) => true
  | CNotFound, NotFound => true
  | CForbidden, Forbidden => true
  | _, _ => false
  end.

(** ** Data model *)

(** A route's source channel is configured by numeric id or by display name. *)
Inductive ChanRef : Type := ById (id : Z) | ByName (name : string).

(** A tag rule of the allow-list or of the deny-list: [tag["name"]] and
    [tag.get("override_mention_everyone", False)]. *)
Record Tag : Type := mkTag {
  tag_name : string;
  override_mention_everyone : bool
}.

Record ForwarderConfig : Type := mkForwarder {
  forwarder_name : string;
  tg_channel_id : ChanRef;
  discord_channel_id : Z;
  forward_everything : bool;
  forward_hashtags : list Tag;
  excluded_hashtags : list Tag;
  mention_override : gmap string (list string);
  mention_everyone : bool
}.

(** A Telegram message, with the fields the engine reads. *)
Record TgMessage : Type := mkTg {
  tg_id : Z;
  peer_channel_id : Z;
  tg_text : string;
  tg_media : bool;
  reply_to_msg_id : option Z
}.

(** A Discord message as returned by [channel.send] or [fetch_message]. *)
Record DMessage : Type := mkDM {
  dm_id : Z;
  dm_channel : Z;
  dm_content : string;
  dm_reference : option Z
}.

Record Role : Type := mkRole { role_name : string; role_mention : string }.

Record Channel : Type := mkChannel { ch_id : Z; guild_roles : list Role }.

Record DeleteEvent : Type := mkDelete {
  deleted_ids : list Z;
  del_channel_id : Z
}.

Record Config : Type := mkConfig {
  telegram_forwarders : list ForwarderConfig;
  built_in_roles : list string;
  openai_enabled : bool;
  recoverer_delay : Z;
  healthcheck_interval : Z
}.

(** ** The world: mapping store, missed records, observable effects *)

(** The log lines of the recovery loop that the properties refer to. *)
Inductive LogLine : Type :=
  | LogRecovered (tg : Z)
  | LogQueued (tg : Z)
  | LogForwarding (tg : Z)
  | LogFetchFailed (e : exn).

(** What the engine does to the outside, in the order it does it. *)
Inductive Event : Type :=
  | Sent (m : DMessage)
  | Edited (id : Z) (content : string)
  | Deleted (id : Z)
  | Slept (seconds : Z)
  | Logged (line : LogLine).

Record Missed : Type := mkMissed {
  ms_forwarder : string;
  ms_tg_id : Z;
  ms_discord_channel : Z;
  ms_exception : option exn
}.

Record World : Type := mkWorld {
  clock : nat;
  mappings : gmap (string * Z) Z;
  missed : list Missed;
  trace : list Event
}.

(** The collaborators of the engine.  The pure ones are functions of their
    arguments; the network ones answer by the number of suspension points
    passed so far ([clock]), so that the same call may succeed at one moment
    and fail at another, and the health flags may change between two reads.
    [str_lower] is Python's [str.lower]; nothing is assumed of it.
    [utils_get_discord_message_id] is the [get_discord_message_id] that
    [discord_handler.py] imports from [utils], which is not among the
    sources: it answers from the state it finds. *)
Record Env : Type := mkEnv {
  config : Config;
  split_message : string -> list string;
  get_message_forward_hashtags : TgMessage -> list string;
  get_telegram_channel_by_forwarder_name : string -> option ChanRef;
  get_last_messages_for_all_forwarders : gmap (string * Z) Z -> list (string * Z);
  get_channel : Z -> option Channel;
  process_message_text :
    nat -> TgMessage -> ForwarderConfig -> bool -> list string -> bool -> exn + string;
  send_outcome : nat -> Z -> string -> option string -> option Z -> exn + Z;
  media_outcome : nat -> TgMessage -> Z -> string -> option Z -> exn + list DMessage;
  fetch_message_outcome : nat -> Z -> Z -> exn + option DMessage;
  edit_outcome : nat -> Z -> string -> option exn;
  delete_outcome : nat -> Z -> option exn;
  history_outcome : nat -> Z -> Z -> exn + list DMessage;
  fetch_messages_after_outcome : nat -> Z -> ChanRef -> exn + list TgMessage;
  get_input_entity_outcome : nat -> ChanRef -> option exn;
  internet_connected : nat -> bool;
  telegram_is_healthy : nat -> bool;
  discord_is_healthy : nat -> bool;
  str_lower : string -> string;
  utils_get_discord_message_id : World -> option Z -> option Z
}.

(** ** A state and exception monad *)

Inductive Result (A : Type) : Type :=
  | Ok (a : A)
  | Raise (e : exn).
Arguments Ok {A} a.
Arguments Raise {A} e.

Definition M (A : Type) : Type := World -> Result A * World.

Definition ret {A} (a : A) : M A := fun w => (Ok a, w).

Definition raise {A} (e : exn) : M A := fun w => (Raise e, w).

Definition bind {A B} (m : M A) (k : A -> M B) : M B :=
  fun w => match m w with
           | (Ok a, w') => k a w'
           | (Raise e, w') => (Raise e, w')
           end.

Notation "'let*' x ':=' c 'in' k" := (bind c (fun x => k))
  (at level 10, x pattern, c at level 100, k at level 200).

(** [try: body except cls: handler]: the handler runs for the exceptions it
    accepts, the others go on propagating. *)
Definition try_except {A} (body : M A) (handler : exn -> option (M A)) : M A :=
  fun w => match body w with
           | (Ok a, w') => (Ok a, w')
           | (Raise e, w') =>
               match handler e with
               | Some h => h w'
               | None => (Raise e, w')
               end
           end.

(** A suspension point: an [await] on a collaborator. *)
Definition tick : M nat :=
  fun w => (Ok (clock w),
            mkWorld (S (clock w)) (mappings w) (missed w) (trace w)).

Definition emit (e : Event) : M unit :=
  fun w => (Ok tt, mkWorld (clock w) (mappings w) (missed w) (trace w ++ [e])).

Definition now : M nat := fun w => (Ok (clock w), w).

Definition lift_sum {A} (r : exn + A) : M A :=
  match r with inl e => raise e | inr a => ret a end.

Definition lift_opt_exn (r : option exn) : M unit :=
  match r with Some e => raise e | None => ret tt end.

Definition sleep (seconds : Z) : M unit :=
  let* _ := tick in emit (Slept seconds).

(** Python truthiness of the values the engine tests. *)
Definition truthy_list {A} (l : list A) : bool :=
  match l with [] => false | _ => true end.

Definition truthy_id (o : option Z) : bool :=
  match o with Some z => negb (Z.eqb z 0) | None => false end.

Definition truthy_str (s : string) : bool :=
  match s with EmptyString => false | _ => true end.

Definition truthy_chan (o : option ChanRef) : bool :=
  match o with
  | Some (ById z) => negb (Z.eqb z 0)
  | Some (ByName s) => truthy_str s
  | None => false
  end.

(** [x in l] for a list of strings. *)
Definition py_in (x : string) (l : list string) : bool :=
  existsb (String.eqb x) l.

(** ** Mapping store *)

Module History.

(** The history manager ([bridge/history.py], class
    [MessageHistoryHandler]) is not among the sources; its operations follow
    the contract of the mapping store.  A mapping is keyed by (route name,
    source message id); its value is what [Bridge] passes, one destination
    id. *)

(** Modelled from the spec: [lookup(route, source_id)] answers the recorded
    value, or nothing. *)
Definition get_discord_message_id (name : string) (tg : Z) : M (option Z) :=
  fun w => (Ok (mappings w !! (name, tg)), w).

(** Modelled from the spec: [record(route, source_id, ...)] adds the
    mapping; a second call for the same key overwrites it. *)
Definition save_mapping_data (name : string) (tg : Z) (discord_id : Z) : M unit :=
  fun w => (Ok tt,
            mkWorld (clock w) (<[(name, tg) := discord_id]> (mappings w))
                    (missed w) (trace w)).

(** Modelled from the spec: a missed-forward record holds the route name,
    the source message id, the destination channel id and the failure
    context. *)
Definition save_missed_message (name : string) (tg : Z) (channel : Z)
    (ex : option exn) : M unit :=
  fun w => (Ok tt,
            mkWorld (clock w) (mappings w)
                    (missed w ++ [mkMissed name tg channel ex]) (trace w)).

(** The store as the recovery loop reads it when it asks for the last
    messages of all forwarders. *)
Definition get_mappings : M (gmap (string * Z) Z) :=
  fun w => (Ok (mappings w), w).

End History.

(** ** The engine, over its collaborators *)

Section Engine.

Variable E : Env.

(** *** Destination client *)

Definition channel_send (ch : Z) (content : string) (file : option string)
    (reference : option Z) : M DMessage :=
  let* t := tick in
  let* id := lift_sum (send_outcome E t ch content file reference) in
  let m := mkDM id ch content reference in
  let* _ := emit (Sent m) in
  ret m.

Definition fetch_message (ch : Z) (id : Z) : M (option DMessage) :=
  let* t := tick in
  lift_sum (fetch_message_outcome E t ch id).

Definition message_edit (m : DMessage) (content : string) : M unit :=
  let* t := tick in
  let* _ := lift_opt_exn (edit_outcome E t (dm_id m) content) in
  emit (Edited (dm_id m) content).

Definition message_delete (m : DMessage) : M unit :=
  let* t := tick in
  let* _ := lift_opt_exn (delete_outcome E t (dm_id m)) in
  emit (Deleted (dm_id m)).

(** [channel.history(around=..., limit=...)], collected in a list; how many
    messages the destination answers for a limit is its own business. *)
Definition channel_history (ch : Z) (around : Z) (limit : nat) : M (list DMessage) :=
  let* t := tick in
  lift_sum (history_outcome E t ch around).

(** *** discord_handler.py *)

(** The [for part in message_parts] loop of [forward_to_discord]. *)
Fixpoint send_parts (ch : Z) (reference : option Z) (message_parts : list string)
    (sent_messages : list DMessage) : M (list DMessage) :=
  match message_parts with
  | [] => ret sent_messages
  | part :: rest =>
      let* sent_message := channel_send ch part None reference in
      send_parts ch reference rest (sent_messages ++ [sent_message])
  end.

Definition forward_to_discord (ch : Z) (message_text : string)
    (image_file : option string) (reference : option Z) : M (list DMessage) :=
  let message_parts := split_message E message_text in
  match image_file with
  | Some f =>
      if truthy_str f then
        match message_parts with
        | [] => raise IndexError
        | first :: rest =>
            let* sent_message := channel_send ch first (Some f) reference in
            send_parts ch reference rest [sent_message]
        end
      else send_parts ch reference message_parts []
  | None => send_parts ch reference message_parts []
  end.

(** [get_discord_message_id(event.message.reply_to_msg_id)], of [utils]. *)
Definition get_discord_message_id (reply_to : option Z) : M (option Z) :=
  fun w => (Ok (utils_get_discord_message_id E w reply_to), w).

(** [fetch_discord_reference(event, discord_channel)], as [discord_handler.py]
    declares it.  [MessageReference.from_message] is the id of the message
    found in the channel history. *)
Definition fetch_discord_reference (msg : TgMessage) (ch : Z) : M (option Z) :=
  let* discord_message_id := get_discord_message_id (reply_to_msg_id msg) in
  if negb (truthy_id discord_message_id) then ret None
  else
    let id := default 0 discord_message_id in
    try_except
      (let* messages := channel_history ch id 10 in
       match find (fun m => Z.eqb (dm_id m) id) messages with
       | None => ret None
       | Some discord_message => ret (Some (dm_id discord_message))
       end)
      (fun e => if isinstance e CNotFound then Some (ret None) else None).

Definition is_builtin_mention (role_name : string) (discord_built_in_roles : list string)
    : bool :=
  py_in (str_lower E role_name) discord_built_in_roles.

(** The inner loop of [get_mention_roles], over the role names of one tag. *)
Definition add_roles (server_roles : list Role) (discord_built_in_roles : list string)
    (names : list string) (mention_roles : gset string) : gset string :=
  fold_left
    (fun acc name =>
       if is_builtin_mention name discord_built_in_roles
       then {[ ("@" ++ name)%string ]} ∪ acc
       else match find (fun r => String.eqb (role_name r) name) server_roles with
            | Some role => {[ role_mention role ]} ∪ acc
            | None => acc
            end)
    names mention_roles.

Definition get_mention_roles (message_forward_hashtags : list string)
    (mention_override : gmap string (list string))
    (discord_built_in_roles : list string) (server_roles : list Role) : list string :=
  elements
    (fold_left
       (fun acc tag =>
          match mention_override !! str_lower E tag with
          | Some names => add_roles server_roles discord_built_in_roles names acc
          | None => acc
          end)
       message_forward_hashtags (∅ : gset string)).

(** *** bridge/core.py *)

(** How a loop body ends: by falling through or [continue] ([Next]), or by
    a [return] that leaves the handler. *)
Inductive Flow : Type := Next | Return.

Fixpoint for_each {A} (body : A -> M Flow) (l : list A) : M Flow :=
  match l with
  | [] => ret Next
  | x :: rest =>
      let* c := body x in
      match c with
      | Next => for_each body rest
      | Return => ret Return
      end
  end.

(** [tg_channel_id == forwarder_config["tg_channel_id"]], the left side
    being the integer id of the event's channel. *)
Definition same_channel (tg_channel : Z) (c : ChanRef) : bool :=
  match c with
  | ById z => Z.eqb tg_channel z
  | ByName _ => false
  end.

Definition get_matching_forwarders (tg_channel : Z) : list ForwarderConfig :=
  List.filter (fun f => same_channel tg_channel (tg_channel_id f))
              (telegram_forwarders (config E)).

Definition truthy_dict (m : gmap string (list string)) : bool :=
  truthy_list (map_to_list m).

(** [[tag for tag in tags if tag["name"].lower() in message_forward_hashtags]] *)
Definition matching_tags (tags : list Tag) (message_forward_hashtags : list string)
    : list Tag :=
  List.filter (fun tag => py_in (str_lower E (tag_name tag)) message_forward_hashtags)
              tags.

(** The routing decision of one route, with the local variable
    [message_forward_hashtags] as the loop leaves it ([None]: never
    assigned so far in this call of the handler). *)
Record Decision : Type := mkDecision {
  should_forward : bool;
  decided_mention_everyone : bool;
  hashtags_local : option (list string)
}.

(** Lines 236 to 271 of [_handle_new_message]. *)
Definition routing_decision (f : ForwarderConfig) (msg : TgMessage)
    (message_forward_hashtags : option (list string)) : Decision :=
  let should_forward_message := forward_everything f in
  let mention := mention_everyone f in
  let '(should_forward_message, mention, message_forward_hashtags) :=
    if negb should_forward_message || truthy_dict (mention_override f) then
      let hashtags := get_message_forward_hashtags E msg in
      let matching_forward_hashtags :=
        if truthy_list hashtags && truthy_list (forward_hashtags f)
        then matching_tags (forward_hashtags f) hashtags
        else [] in
      if (0 <? length matching_forward_hashtags)%nat
      then (true, existsb override_mention_everyone matching_forward_hashtags,
            Some hashtags)
      else (should_forward_message, mention, Some hashtags)
    else (should_forward_message, mention, message_forward_hashtags) in
  let '(should_forward_message, message_forward_hashtags) :=
    if truthy_list (excluded_hashtags f) then
      let hashtags := get_message_forward_hashtags E msg in
      let matching_forward_hashtags := matching_tags (excluded_hashtags f) hashtags in
      if (0 <? length matching_forward_hashtags)%nat
      then (false, Some hashtags)
      else (should_forward_message, Some hashtags)
    else (should_forward_message, message_forward_hashtags) in
  mkDecision should_forward_message mention message_forward_hashtags.

Fixpoint emit_all (l : list Event) : M unit :=
  match l with
  | [] => ret tt
  | e :: rest => let* _ := emit e in emit_all rest
  end.

(** Modelled from the spec: [handle_message_media]
    ([bridge/telegram_handler.py]) is not among the sources.  The media
    collaborator answers with the destination messages it sent, or fails. *)
Definition handle_message_media (msg : TgMessage) (ch : Z) (message_text : string)
    (reference : option Z) : M (list DMessage) :=
  let* t := tick in
  let* sent := lift_sum (media_outcome E t msg ch message_text reference) in
  let* _ := emit_all (map Sent sent) in
  ret sent.

(** Lines 291 to 299: the delivery of one event on one route. *)
Definition deliver (msg : TgMessage) (ch : Z) (message_text : string)
    (discord_reference : option Z) : M (list DMessage) :=
  if tg_media msg
  then handle_message_media msg ch message_text discord_reference
  else forward_to_discord ch message_text None discord_reference.

(** Lines 301 to 318: what is written once the delivery has returned. *)
Definition record_delivery (msg : TgMessage) (f : ForwarderConfig)
    (sent_discord_messages : list DMessage) : M unit :=
  match sent_discord_messages with
  | main_sent_discord_message :: _ =>
      History.save_mapping_data (forwarder_name f) (tg_id msg)
                                (dm_id main_sent_discord_message)
  | [] =>
      History.save_missed_message (forwarder_name f) (tg_id msg)
                                  (discord_channel_id f) None
  end.

(** Lines 291 to 318: delivery, then the write that depends on its result. *)
Definition deliver_and_record (msg : TgMessage) (f : ForwarderConfig) (ch : Z)
    (message_text : string) (discord_reference : option Z) : M unit :=
  let* sent_discord_messages := deliver msg ch message_text discord_reference in
  record_delivery msg f sent_discord_messages.

(** The call of line 287,
    [fetch_discord_reference(event, forwarder.forwarder_name, discord_channel)]:
    the function is declared over two positional parameters, so that a call
    with three raises [TypeError] before the body of the function runs. *)
Definition call_fetch_discord_reference (msg : TgMessage) (name : string) (ch : Z)
    : M (option Z) :=
  raise (TypeError "fetch_discord_reference() takes 2 positional arguments but 3 were given").

(** Lines 276 to 318: the route forwards the event. *)
Definition forward_on_route (msg : TgMessage) (f : ForwarderConfig)
    (mention : bool) (message_forward_hashtags : option (list string)) : M unit :=
  let* server_roles :=
    match get_channel E (discord_channel_id f) with
    | Some discord_channel => ret (ch_id discord_channel, guild_roles discord_channel)
    | None => raise (AttributeError "guild")
    end in
  let '(ch, roles) := server_roles in
  let* hashtags :=
    match message_forward_hashtags with
    | Some hashtags => ret hashtags
    | None => raise (UnboundLocalError "message_forward_hashtags")
    end in
  let mention_roles :=
    get_mention_roles hashtags (mention_override f) (built_in_roles (config E)) roles in
  let* t := tick in
  let* message_text :=
    lift_sum (process_message_text E t msg f mention mention_roles
                                   (openai_enabled (config E))) in
  let* discord_reference :=
    if truthy_id (reply_to_msg_id msg)
    then call_fetch_discord_reference msg (forwarder_name f) ch
    else ret None in
  deliver_and_record msg f ch message_text discord_reference.

(** The body of the [for forwarder in matching_forwarders] loop; it answers
    the local [message_forward_hashtags] for the next iteration. *)
Definition handle_new_message_for (msg : TgMessage) (f : ForwarderConfig)
    (message_forward_hashtags : option (list string)) : M (option (list string)) :=
  let d := routing_decision f msg message_forward_hashtags in
  if negb (should_forward d) then ret (hashtags_local d)
  else
    let* _ := forward_on_route msg f (decided_mention_everyone d) (hashtags_local d) in
    ret (hashtags_local d).

Fixpoint new_message_loop (msg : TgMessage) (forwarders : list ForwarderConfig)
    (message_forward_hashtags : option (list string)) : M unit :=
  match forwarders with
  | [] => ret tt
  | f :: rest =>
      let* hashtags := handle_new_message_for msg f message_forward_hashtags in
      new_message_loop msg rest hashtags
  end.

Definition _handle_new_message (msg : TgMessage) : M unit :=
  let matching_forwarders := get_matching_forwarders (peer_channel_id msg) in
  if (length matching_forwarders <? 1)%nat then ret tt
  else new_message_loop msg matching_forwarders None.

(** The three [except] clauses of the edit and delete handlers. *)
Definition except_discord_errors {A} (h : M A) (e : exn) : option (M A) :=
  if isinstance e CNotFound then Some h
  else if isinstance e CForbidden then Some h
  else if isinstance e CHTTPException then Some h
  else None.

(** The body of the loop of [_handle_edit_message]. *)
Definition edit_for (msg : TgMessage) (f : ForwarderConfig) : M Flow :=
  let* discord_message_id :=
    History.get_discord_message_id (forwarder_name f) (tg_id msg) in
  match discord_message_id with
  | None => ret Next
  | Some id =>
      match get_channel E (discord_channel_id f) with
      | None => ret Next
      | Some discord_channel =>
          try_except
            (let* discord_message := fetch_message (ch_id discord_channel) id in
             match discord_message with
             | None => ret Next
             | Some m => let* _ := message_edit m (tg_text msg) in ret Next
             end)
            (except_discord_errors (ret Return))
      end
  end.

(** [event.message] may be [None]. *)
Definition _handle_edit_message (event_message : option TgMessage) : M unit :=
  match event_message with
  | None => ret tt
  | Some msg =>
      let matching_forwarders := get_matching_forwarders (peer_channel_id msg) in
      if (length matching_forwarders <? 1)%nat then ret tt
      else let* _ := for_each (edit_for msg) matching_forwarders in ret tt
  end.

(** The body of the inner loop of [_handle_deleted_message]. *)
Definition delete_for (f : ForwarderConfig) (deleted_id : Z) : M Flow :=
  let* discord_message_id :=
    History.get_discord_message_id (forwarder_name f) deleted_id in
  match discord_message_id with
  | None => ret Next
  | Some id =>
      match get_channel E (discord_channel_id f) with
      | None => ret Return
      | Some discord_channel =>
          let* fetched :=
            try_except
              (let* m := fetch_message (ch_id discord_channel) id in ret (Some m))
              (fun e => if isinstance e CNotFound then Some (ret None) else None) in
          match fetched with
          | None => ret Return
          | Some discord_message =>
              try_except
                (match discord_message with
                 | Some m => let* _ := message_delete m in ret Next
                 | None => raise (AttributeError "delete")
                 end)
                (except_discord_errors (ret Return))
          end
      end
  end.

Definition _handle_deleted_message (event : DeleteEvent) : M unit :=
  let matching_forwarders := get_matching_forwarders (del_channel_id event) in
  if (length matching_forwarders <? 1)%nat then ret tt
  else
    let* _ := for_each (fun f => for_each (delete_for f) (deleted_ids event))
                       matching_forwarders in
    ret tt.

(** *** The recovery loop *)

(** The body of the [for fetched_message in fetched_messages] loop. *)
Definition replay_message (channel_id : ChanRef) (fetched_message : TgMessage) : M unit :=
  let* _ := emit (Logged (LogRecovered (tg_id fetched_message))) in
  let* t := tick in
  let* _ := lift_opt_exn (get_input_entity_outcome E t channel_id) in
  let* t := now in
  if negb (discord_is_healthy E t) then
    emit (Logged (LogQueued (tg_id fetched_message)))
  else
    let* _ := sleep (recoverer_delay (config E)) in
    let* _ := emit (Logged (LogForwarding (tg_id fetched_message))) in
    _handle_new_message fetched_message.

Fixpoint replay_messages (channel_id : ChanRef) (fetched_messages : list TgMessage)
    : M unit :=
  match fetched_messages with
  | [] => ret tt
  | m :: rest =>
      let* _ := replay_message channel_id m in
      replay_messages channel_id rest
  end.

(** The body of the [for last_message in last_messages] loop. *)
Definition recover_forwarder (last_message : string * Z) : M unit :=
  let '(name, last_tg_message_id) := last_message in
  let channel_id := get_telegram_channel_by_forwarder_name E name in
  if truthy_chan channel_id then
    let c := default (ById 0) channel_id in
    let* t := tick in
    let* fetched_messages :=
      lift_sum (fetch_messages_after_outcome E t last_tg_message_id c) in
    replay_messages c fetched_messages
  else ret tt.

Fixpoint recover_forwarders (last_messages : list (string * Z)) : M unit :=
  match last_messages with
  | [] => ret tt
  | m :: rest => let* _ := recover_forwarder m in recover_forwarders rest
  end.

(** The [try] block of one pass of the loop. *)
Definition check_missed_messages : M unit :=
  let* store := History.get_mappings in
  recover_forwarders (get_last_messages_for_all_forwarders E store).

(** One pass of the [while True] loop of [on_restored_connectivity]. *)
Definition recovery_pass : M unit :=
  let* t := now in
  let* _ :=
    if internet_connected E t && telegram_is_healthy E t then
      try_except check_missed_messages
        (fun e => if isinstance e CException
                  then Some (emit (Logged (LogFetchFailed e))) else None)
    else ret tt in
  sleep (healthcheck_interval (config E)).

(** The loop never leaves by itself; [passes] bounds how long it is
    observed. *)
Fixpoint on_restored_connectivity (passes : nat) : M unit :=
  match passes with
  | O => ret tt
  | S n => let* _ := recovery_pass in on_restored_connectivity n
  end.

End Engine.

(** ** Scenarios

    Concrete collaborators and configurations, for the examples below. *)

Module Scenario.

(** Every collaborator answers and nothing fails: a text is sent in one part,
    the destination gives the id [1000 + clock] to a message it accepts, and
    a message looked up on the destination is there. *)
Definition quiet (cfg : Config) : Env := {|
  config := cfg;
  split_message := fun s => [s];
  get_message_forward_hashtags := fun _ => [];
  get_telegram_channel_by_forwarder_name := fun name =>
    tg_channel_id <$>
      find (fun f => String.eqb (forwarder_name f) name) (telegram_forwarders cfg);
  get_last_messages_for_all_forwarders := fun _ => [];
  get_channel := fun id => Some (mkChannel id []);
  process_message_text := fun _ msg _ _ _ _ => inr (tg_text msg);
  send_outcome := fun t _ _ _ _ => inr (1000 + Z.of_nat t)%Z;
  media_outcome := fun _ _ _ _ _ => inr [];
  fetch_message_outcome := fun _ ch id => inr (Some (mkDM id ch "" None));
  edit_outcome := fun _ _ _ => None;
  delete_outcome := fun _ _ => None;
  history_outcome := fun _ ch around => inr [mkDM around ch "" None];
  fetch_messages_after_outcome := fun _ _ _ => inr [];
  get_input_entity_outcome := fun _ _ => None;
  internet_connected := fun _ => true;
  telegram_is_healthy := fun _ => true;
  discord_is_healthy := fun _ => true;
  str_lower := ascii_lower;
  utils_get_discord_message_id := fun _ _ => None
|}.

Definition with_split (E : Env) (v : string -> list string) : Env :=
  mkEnv (config E) v (get_message_forward_hashtags E)
        (get_telegram_channel_by_forwarder_name E)
        (get_last_messages_for_all_forwarders E) (get_channel E)
        (process_message_text E) (send_outcome E) (media_outcome E)
        (fetch_message_outcome E) (edit_outcome E) (delete_outcome E)
        (history_outcome E) (fetch_messages_after_outcome E)
        (get_input_entity_outcome E) (internet_connected E) (telegram_is_healthy E)
        (discord_is_healthy E) (str_lower E) (utils_get_discord_message_id E).

Definition with_hashtags (E : Env) (v : TgMessage -> list string) : Env :=
  mkEnv (config E) (split_message E) v (get_telegram_channel_by_forwarder_name E)
        (get_last_messages_for_all_forwarders E) (get_channel E)
        (process_message_text E) (send_outcome E) (media_outcome E)
        (fetch_message_outcome E) (edit_outcome E) (delete_outcome E)
        (history_outcome E) (fetch_messages_after_outcome E)
        (get_input_entity_outcome E) (internet_connected E) (telegram_is_healthy E)
        (discord_is_healthy E) (str_lower E) (utils_get_discord_message_id E).

Definition with_last_messages (E : Env)
    (v : gmap (string * Z) Z -> list (string * Z)) : Env :=
  mkEnv (config E) (split_message E) (get_message_forward_hashtags E)
        (get_telegram_channel_by_forwarder_name E) v (get_channel E)
        (process_message_text E) (send_outcome E) (media_outcome E)
        (fetch_message_outcome E) (edit_outcome E) (delete_outcome E)
        (history_outcome E) (fetch_messages_after_outcome E)
        (get_input_entity_outcome E) (internet_connected E) (telegram_is_healthy E)
        (discord_is_healthy E) (str_lower E) (utils_get_discord_message_id E).

Definition with_send (E : Env)
    (v : nat -> Z -> string -> option string -> option Z -> exn + Z) : Env :=
  mkEnv (config E) (split_message E) (get_message_forward_hashtags E)
        (get_telegram_channel_by_forwarder_name E)
        (get_last_messages_for_all_forwarders E) (get_channel E)
        (process_message_text E) v (media_outcome E) (fetch_message_outcome E)
        (edit_outcome E) (delete_outcome E) (history_outcome E)
        (fetch_messages_after_outcome E) (get_input_entity_outcome E)
        (internet_connected E) (telegram_is_healthy E) (discord_is_healthy E)
        (str_lower E) (utils_get_discord_message_id E).

Definition with_fetch_message (E : Env)
    (v : nat -> Z -> Z -> exn + option DMessage) : Env :=
  mkEnv (config E) (split_message E) (get_message_forward_hashtags E)
        (get_telegram_channel_by_forwarder_name E)
        (get_last_messages_for_all_forwarders E) (get_channel E)
        (process_message_text E) (send_outcome E) (media_outcome E) v (edit_outcome E)
        (delete_outcome E) (history_outcome E) (fetch_messages_after_outcome E)
        (get_input_entity_outcome E) (internet_connected E) (telegram_is_healthy E)
        (discord_is_healthy E) (str_lower E) (utils_get_discord_message_id E).

Definition with_history (E : Env) (v : nat -> Z -> Z -> exn + list DMessage) : Env :=
  mkEnv (config E) (split_message E) (get_message_forward_hashtags E)
        (get_telegram_channel_by_forwarder_name E)
        (get_last_messages_for_all_forwarders E) (get_channel E)
        (process_message_text E) (send_outcome E) (media_outcome E)
        (fetch_message_outcome E) (edit_outcome E) (delete_outcome E) v
        (fetch_messages_after_outcome E) (get_input_entity_outcome E)
        (internet_connected E) (telegram_is_healthy E) (discord_is_healthy E)
        (str_lower E) (utils_get_discord_message_id E).

Definition with_fetch_after (E : Env)
    (v : nat -> Z -> ChanRef -> exn + list TgMessage) : Env :=
  mkEnv (config E) (split_message E) (get_message_forward_hashtags E)
        (get_telegram_channel_by_forwarder_name E)
        (get_last_messages_for_all_forwarders E) (get_channel E)
        (process_message_text E) (send_outcome E) (media_outcome E)
        (fetch_message_outcome E) (edit_outcome E) (delete_outcome E)
        (history_outcome E) v (get_input_entity_outcome E) (internet_connected E)
        (telegram_is_healthy E) (discord_is_healthy E) (str_lower E)
        (utils_get_discord_message_id E).

Definition with_internet (E : Env) (v : nat -> bool) : Env :=
  mkEnv (config E) (split_message E) (get_message_forward_hashtags E)
        (get_telegram_channel_by_forwarder_name E)
        (get_last_messages_for_all_forwarders E) (get_channel E)
        (process_message_text E) (send_outcome E) (media_outcome E)
        (fetch_message_outcome E) (edit_outcome E) (delete_outcome E)
        (history_outcome E) (fetch_messages_after_outcome E)
        (get_input_entity_outcome E) v (telegram_is_healthy E) (discord_is_healthy E)
        (str_lower E) (utils_get_discord_message_id E).

Definition with_discord_health (E : Env) (v : nat -> bool) : Env :=
  mkEnv (config E) (split_message E) (get_message_forward_hashtags E)
        (get_telegram_channel_by_forwarder_name E)
        (get_last_messages_for_all_forwarders E) (get_channel E)
        (process_message_text E) (send_outcome E) (media_outcome E)
        (fetch_message_outcome E) (edit_outcome E) (delete_outcome E)
        (history_outcome E) (fetch_messages_after_outcome E)
        (get_input_entity_outcome E) (internet_connected E) (telegram_is_healthy E) v
        (str_lower E) (utils_get_discord_message_id E).

Definition with_reply_lookup (E : Env) (v : World -> option Z -> option Z) : Env :=
  mkEnv (config E) (split_message E) (get_message_forward_hashtags E)
        (get_telegram_channel_by_forwarder_name E)
        (get_last_messages_for_all_forwarders E) (get_channel E)
        (process_message_text E) (send_outcome E) (media_outcome E)
        (fetch_message_outcome E) (edit_outcome E) (delete_outcome E)
        (history_outcome E) (fetch_messages_after_outcome E)
        (get_input_entity_outcome E) (internet_connected E) (telegram_is_healthy E)
        (discord_is_healthy E) (str_lower E) v.

Definition settings (forwarders : list ForwarderConfig) : Config :=
  mkConfig forwarders ["everyone"; "here"] false 1 60.

Definition empty_world : World := mkWorld 0 ∅ [] [].

Definition world_with (store : list (string * Z * Z)) : World :=
  mkWorld 0 (list_to_map store) [] [].

Definition text_message (id channel : Z) (text : string) : TgMessage :=
  mkTg id channel text false None.

Definition reply_message (id channel : Z) (text : string) (reply_to : Z) : TgMessage :=
  mkTg id channel text false (Some reply_to).

(** Route [news]: source channel 1, destination channel 10, allow tag
    [#news], deny tag [#draft], nothing forwarded by default. *)
Definition news : ForwarderConfig :=
  mkForwarder "news" (ById 1) 10 false [mkTag "#news" false] [mkTag "#draft" false] ∅ false.

(** Route [all]: everything from channel 1 goes to channel 20, with no
    mention override and no deny-list. *)
Definition all : ForwarderConfig :=
  mkForwarder "all" (ById 1) 20 true [] [] ∅ false.

(** Route [all_but_drafts]: everything but [#draft] from channel 1 goes to
    channel 30. *)
Definition all_but_drafts : ForwarderConfig :=
  mkForwarder "all_but_drafts" (ById 1) 30 true [] [mkTag "#draft" false] ∅ false.

(** Route [mirror]: a second route from channel 1, to channel 40, for the
    messages tagged [#news]. *)
Definition mirror : ForwarderConfig :=
  mkForwarder "mirror" (ById 1) 40 false [mkTag "#news" false] [] ∅ false.

End Scenario.


(** ** Startup: [Bridge._register_forwarders] *)

(** A dialog of the Telegram account: its display name, the id and access
    hash of its entity, and whether the entity is a [Channel] or an
    [InputChannel]. *)
Record Dialog : Type := mkDialog {
  dialog_name : string;
  entity_id : Z;
  entity_access_hash : Z;
  is_channel : bool
}.

Record InputChannel : Type := mkInputChannel {
  channel_id : Z;
  access_hash : Z
}.

(** How the registration ends: it returns with the entities to listen to,
    or [sys.exit] ends the process, or an exception leaves it. *)
Inductive Startup : Type :=
  | Registered (input_channels_entities : list InputChannel)
  | SystemExit (code : Z)
  | Uncaught (e : exn).

(** [forwarder.tg_channel_id in {dialog.name, dialog.entity.id}]: a configured
    name is compared with the display name, a configured number with the
    id. *)
Definition names_dialog (c : ChanRef) (dialog : Dialog) : bool :=
  match c with
  | ById z => Z.eqb z (entity_id dialog)
  | ByName s => String.eqb s (dialog_name dialog)
  end.

Definition input_channel_of (dialog : Dialog) : InputChannel :=
  mkInputChannel (entity_id dialog) (entity_access_hash dialog).

(** The [for forwarder in self.config.telegram_forwarders] loop. *)
Fixpoint register_dialog (dialog : Dialog) (forwarders : list ForwarderConfig)
    (input_channels_entities : list InputChannel) : list InputChannel :=
  match forwarders with
  | [] => input_channels_entities
  | forwarder :: rest =>
      if names_dialog (tg_channel_id forwarder) dialog
      then register_dialog dialog rest
             (input_channels_entities ++ [input_channel_of dialog])
      else register_dialog dialog rest input_channels_entities
  end.

(** The [async for dialog in self.telegram_client.iter_dialogs()] loop, over
    the dialogs the client yields. *)
Fixpoint iterate_dialogs (forwarders : list ForwarderConfig) (dialogs : list Dialog)
    (input_channels_entities : list InputChannel) : list InputChannel :=
  match dialogs with
  | [] => input_channels_entities
  | dialog :: rest =>
      if negb (is_channel dialog)
      then iterate_dialogs forwarders rest input_channels_entities
      else iterate_dialogs forwarders rest
             (register_dialog dialog forwarders input_channels_entities)
  end.

(** The [try] block of [_register_forwarders], the client being connected:
    the client yields [dialogs] and then either ends the iteration or raises
    [failure]. *)
Definition register_connected (forwarders : list ForwarderConfig)
    (dialogs : list Dialog) (failure : option exn)
    (input_channels_entities : list InputChannel) : Startup :=
  let entities := iterate_dialogs forwarders dialogs input_channels_entities in
  match failure with
  | Some ex => if isinstance ex CException then SystemExit 1 else Uncaught ex
  | None =>
      if (length entities <=? 0)%nat then SystemExit 1 else Registered entities
  end.

(** [_register_forwarders], the client answering [is_connected()] with
    [False] for [failed_checks] calls and with [True] then: each failed check
    is followed by a sleep of one second and a new call. *)
Fixpoint _register_forwarders (failed_checks : nat) (forwarders : list ForwarderConfig)
    (dialogs : list Dialog) (failure : option exn)
    (input_channels_entities : list InputChannel) : list Event * Startup :=
  match failed_checks with
  | O => ([], register_connected forwarders dialogs failure input_channels_entities)
  | S n =>
      let '(slept, outcome) :=
        _register_forwarders n forwarders dialogs failure input_channels_entities in
      (Slept 1 :: slept, outcome)
  end.
(** ** What is read off a run *)

(** The destination messages sent, in send order. *)
Definition sent_messages (tr : list Event) : list DMessage :=
  omap (fun e => match e with Sent m => Some m | _ => None end) tr.

(** The source ids handed to the new-message handler by the recovery loop,
    in the order they were. *)
Definition forwarded_ids (tr : list Event) : list Z :=
  omap (fun e => match e with Logged (LogForwarding tg) => Some tg | _ => None end) tr.


(** A computation respects a relation between the world before and after. *)
Definition respects (R : World -> World -> Prop) {A} (m : M A) : Prop :=
  forall w, R w (m w).2.

(** The mapping store is left as it was. *)
Definition same_mappings (w w' : World) : Prop := mappings w' = mappings w.

(** Nothing is written to the store, nothing is recorded as missed and
    nothing reaches the destination. *)
Definition silent (w w' : World) : Prop :=
  mappings w' = mappings w /\ missed w' = missed w /\
  sent_messages (trace w') = sent_messages (trace w) /\
  forwarded_ids (trace w') = forwarded_ids (trace w).

(** No message has been handed to the new-message handler by the recovery
    loop. *)
Definition same_forwarded (w w' : World) : Prop :=
  forwarded_ids (trace w') = forwarded_ids (trace w).

(** Only the clock has moved. *)
Definition only_clock (w w' : World) : Prop :=
  mappings w' = mappings w /\ missed w' = missed w /\ trace w' = trace w.

(** Mappings are written at the keys in [P] only. *)
Definition writes_within (P : string * Z -> Prop) (w w' : World) : Prop :=
  forall k : string * Z, ~ P k -> mappings w' !! k = mappings w !! k.

(** Relations that are closed under sequencing. *)
Class Frame (R : World -> World -> Prop) : Prop := {
  frame_refl : forall w, R w w;
  frame_trans : forall a b c, R a b -> R b c -> R a c
}.

(** Relations that hold of every step that leaves the store, the missed
    records and the sent and forwarded parts of the trace as they were. *)
Class Unobservant (R : World -> World -> Prop) : Prop :=
  unobservant : forall w w', silent w w' -> R w w'.

(** Relations that hold of every step that moves the clock only. *)
Class Timeless (R : World -> World -> Prop) : Prop :=
  timeless : forall w w', only_clock w w' -> R w w'.

(** Relations that look at the mapping store only. *)
Class StoreOnly (R : World -> World -> Prop) : Prop :=
  store_only : forall w w', mappings w' = mappings w -> R w w'.

(** Events that are neither a send nor a hand-over to the handler. *)
Definition quiet_event (e : Event) : bool :=
  match e with
  | Sent _ => false
  | Logged (LogForwarding _) => false
  | _ => true
  end.

(** Whether the turn of a message hands it to the handler. *)
Definition handed_over (E : Env) (c : ChanRef) (w : World) : bool :=
  match get_input_entity_outcome E (clock w) c with
  | Some _ => false
  | None => discord_is_healthy E (S (clock w))
  end.

(** The trace has grown: what was done before is still there, in order. *)
Definition grows (w w' : World) : Prop :=
  exists evs, trace w' = trace w ++ evs.

(** The trace has grown, and every entry of the mapping store that is not as
    it was is, at a key in [P], the id of a destination message sent in
    between. *)
Definition written_after_send (P : string * Z -> Prop) (w w' : World) : Prop :=
  exists evs, trace w' = trace w ++ evs /\
    forall k : string * Z,
      mappings w' !! k = mappings w !! k \/
      (P k /\ exists m, In (Sent m) evs /\ mappings w' !! k = Some (dm_id m)).

(** Relations that hold of every step that appends an event to the trace. *)
Class Appending (R : World -> World -> Prop) : Prop :=
  appending : forall e w, R w (emit e w).2.

(** Nothing is delivered: the store, the missed records and the messages
    sent are as they were. *)
Definition no_delivery (w w' : World) : Prop :=
  mappings w' = mappings w /\ missed w' = missed w /\
  sent_messages (trace w') = sent_messages (trace w).




(** Some tag of a configured list is named, in lower case, among the
    hashtags of the message. *)
Definition any_tag_in (E : Env) (tags : list Tag) (hashtags : list string) : bool :=
  existsb (fun tag => py_in (str_lower E (tag_name tag)) hashtags) tags.

(** The route reads the hashtags of the message before it decides. *)
Definition consults_hashtags (f : ForwarderConfig) : bool :=
  negb (forward_everything f) || truthy_dict (mention_override f)
  || truthy_list (excluded_hashtags f).

(** The mention a configured role name resolves to: the built-in token, or
    the mention of the first server role of that name, or nothing. *)
Definition mention_of (E : Env) (server_roles : list Role)
    (discord_built_in_roles : list string) (name : string) : option string :=
  if is_builtin_mention E name discord_built_in_roles
  then Some ("@" ++ name)%string
  else role_mention <$> find (fun r => String.eqb (role_name r) name) server_roles.

(** The destination fails with discord's own errors only: what
    [fetch_message], [edit] and [delete] raise is an [HTTPException]. *)
Definition discord_errors_only (E : Env) : Prop :=
  (forall t ch id e, fetch_message_outcome E t ch id = inl e ->
                     isinstance e CHTTPException = true) /\
  (forall t id content e, edit_outcome E t id content = Some e ->
                          isinstance e CHTTPException = true) /\
  (forall t id e, delete_outcome E t id = Some e -> isinstance e CHTTPException = true).

(** The destination knows every channel, has every message asked for, and
    accepts every edit and delete. *)
Definition destination_answers (E : Env) : Prop :=
  (forall id, is_Some (get_channel E id)) /\
  (forall t ch id, exists m, fetch_message_outcome E t ch id = inr (Some m) /\ dm_id m = id) /\
  (forall t id content, edit_outcome E t id content = None) /\
  (forall t id, delete_outcome E t id = None).

(** The destination messages the routes have mapped a source message to, in
    the order of the routes. *)
Definition mapped_ids (store : gmap (string * Z) Z) (forwarders : list ForwarderConfig)
    (tg : Z) : list Z :=
  omap (fun f => store !! (forwarder_name f, tg)) forwarders.

(** The destination messages the routes have mapped the deleted source
    messages to, route by route. *)
Definition mapped_deleted_ids (store : gmap (string * Z) Z)
    (forwarders : list ForwarderConfig) (deleted : list Z) : list Z :=
  flat_map (fun f => omap (fun tg => store !! (forwarder_name f, tg)) deleted) forwarders.

(** What one dialog adds to the registered entities: its input channel once
    per forwarder that names it, when it is a channel. *)
Definition registrations (forwarders : list ForwarderConfig) (dialog : Dialog)
    : list InputChannel :=
  if is_channel dialog
  then repeat (input_channel_of dialog)
              (length (List.filter (fun f => names_dialog (tg_channel_id f) dialog)
                                   forwarders))
  else [].

(** Some channel among the dialogs is named by some forwarder. *)
Definition some_channel_named (forwarders : list ForwarderConfig) (dialogs : list Dialog)
    : Prop :=
  exists dialog f,
    In dialog dialogs /\ In f forwarders /\ is_channel dialog = true /\
    names_dialog (tg_channel_id f) dialog = true.

(** Nothing fails on the way of a text message: the destination knows every
    channel, the text is processed, it splits into one part at least, and
    every send is accepted. *)
Definition collaborators_answer (E : Env) : Prop :=
  (forall id, is_Some (get_channel E id)) /\
  (forall t msg f mention roles ai,
     exists text, process_message_text E t msg f mention roles ai = inr text) /\
  (forall text, split_message E text <> []) /\
  (forall t ch content file reference,
     exists id, send_outcome E t ch content file reference = inr id).

(** ** Concrete runs *)

Module Cases.
Import Scenario.

(** A message of channel 1 whose only hashtag is [#DRAFT], on the route that
    forwards everything but [#draft]. *)
Definition shouting_env : Env :=
  with_hashtags (quiet (settings [all_but_drafts])) (fun _ => ["#DRAFT"]).

Definition shouting_draft : TgMessage := text_message 7 1 "#DRAFT not ready".

(** A message tagged [#news] and [#draft], on route [news]. *)
Definition news_draft_env : Env :=
  with_hashtags (quiet (settings [news])) (fun _ => ["#news"; "#draft"]).

Definition news_draft : TgMessage := text_message 8 1 "#news #draft soon".

(** Route [all] alone. *)
Definition all_env : Env := quiet (settings [all]).

Definition hello : TgMessage := text_message 9 1 "hello".

(** A message tagged [#news] whose text is split in two parts, on route
    [news]. *)
Definition two_parts_env : Env :=
  with_split (with_hashtags (quiet (settings [news])) (fun _ => ["#news"]))
             (fun _ => ["part one"; "part two"]).

Definition long_news : TgMessage := text_message 7 1 "#news part one part two".

Definition two_parts_run : Result unit * World :=
  forward_on_route two_parts_env long_news news false (Some ["#news"]) empty_world.

(** The destination refuses every send. *)
Definition forbidden_env : Env :=
  with_send (with_hashtags (quiet (settings [news])) (fun _ => ["#news"]))
            (fun _ _ _ _ _ => inl Forbidden).


(** Message 4 replies to message 3, which route [news] has mapped to the
    destination message 30.  The lookup of [utils] answers 30 for message 3,
    and the history of the destination channel has every message asked
    for. *)
Definition reply_to_3 : TgMessage := reply_message 4 1 "#news indeed" 3.

Definition mapped_3 : World := world_with [("news", 3, 30)].

Definition kept_reference_env : Env :=
  with_reply_lookup (with_hashtags (quiet (settings [news])) (fun _ => ["#news"]))
                    (fun _ reply_to => if decide (reply_to = Some 3) then Some 30 else None).

(** The same, the history of the destination channel having lost the
    message. *)
Definition lost_reference_env : Env :=
  with_history kept_reference_env (fun _ _ _ => inr []).

(** Source message 5 of channel 1 is deleted; route [news] has mapped it to
    the destination message 50. *)
Definition delete_5 : DeleteEvent := mkDelete [5] 1.

Definition mapped_5 : World := world_with [("news", 5, 50)].

Definition news_env : Env := quiet (settings [news]).

(** Routes [news] and [mirror] both forward channel 1 and both have mapped
    the source message 5, to the destination messages 50 and 60.  The
    destination has lost message 50 and still has message 60. *)
Definition two_routes_env : Env :=
  with_fetch_message
    (with_hashtags (quiet (settings [news; mirror])) (fun _ => ["#news"]))
    (fun _ ch id => if Z.eqb id 50 then inl NotFound
                    else inr (Some (mkDM id ch "" None))).

Definition mapped_twice : World := world_with [("news", 5, 50); ("mirror", 5, 60)].

Definition edited_5 : TgMessage := text_message 5 1 "#news corrected".

(** The same two routes, the destination refusing what is sent to channel 10
    and accepting what is sent to channel 40. *)
Definition first_route_refused_env : Env :=
  with_send
    (with_hashtags (quiet (settings [news; mirror])) (fun _ => ["#news"]))
    (fun t ch _ _ _ => if Z.eqb ch 10 then inl Forbidden
                       else inr (1000 + Z.of_nat t)%Z).

(** Modelled from the spec: the cursor of a route is the highest source
    message id mapped under it ([get_last_messages_for_all_forwarders] of
    [bridge/history.py] is not among the sources). *)
Definition cursor (store : gmap (string * Z) Z) (name : string) : option Z :=
  foldr (fun '((n, tg), _) acc =>
           if String.eqb n name
           then Some (match acc with Some a => Z.max a tg | None => tg end)
           else acc)
        None (map_to_list store).

Definition last_messages (names : list string) (store : gmap (string * Z) Z)
    : list (string * Z) :=
  omap (fun name => (fun c => (name, c)) <$> cursor store name) names.

(** Modelled from the spec: the fetch collaborator answers the messages of
    the source channel whose id is greater than the cursor, here in the order
    the channel log lists them. *)
Definition fetch_after (log : list TgMessage) (last : Z) : list TgMessage :=
  List.filter (fun m => Z.ltb last (tg_id m)) log.

Definition tagged_news (id : Z) : TgMessage := text_message id 1 "#news".

(** Route [news] has mapped source message 100; the source answers the
    messages after it as 101, 103, 102. *)
Definition mapped_100 : World := world_with [("news", 100, 900)].

Definition out_of_order_env : Env :=
  with_fetch_after
    (with_last_messages
       (with_hashtags (quiet (settings [news])) (fun _ => ["#news"]))
       (last_messages ["news"]))
    (fun _ last _ => inr (fetch_after [tagged_news 101; tagged_news 103; tagged_news 102]
                                      last)).

(** The source has the messages 101 and 102 after the cursor; the destination
    is unhealthy at the moment message 101 has its turn in the first pass
    (clock 2) and healthy at every other moment. *)
Definition flapping_env : Env :=
  with_discord_health
    (with_fetch_after
       (with_last_messages
          (with_hashtags (quiet (settings [news])) (fun _ => ["#news"]))
          (last_messages ["news"]))
       (fun _ last _ => inr (fetch_after [tagged_news 101; tagged_news 102] last)))
    (fun t => negb (Nat.eqb t 2)).

(** The world the first pass leaves from [mapped_100]: message 101 was
    skipped, message 102 delivered as the destination message 1005 and
    mapped. *)
Definition store_102 : gmap (string * Z) Z :=
  list_to_map [("news", 100, 900); ("news", 102, 1005)].

Definition after_first_pass : World :=
  mkWorld 7 store_102 []
          [Logged (LogRecovered 101); Logged (LogQueued 101);
           Logged (LogRecovered 102); Slept 1; Logged (LogForwarding 102);
           Sent (mkDM 1005 10 "#news" None); Slept 60].

(** The world of the first pass once the fetch has answered. *)
Definition fetched_100 : World := mkWorld 1 (mappings mapped_100) [] [].

(** The source does not answer the fetch. *)
Definition fetch_failing_env : Env :=
  with_fetch_after
    (with_last_messages (quiet (settings [news])) (last_messages ["news"]))
    (fun _ _ _ => inl (OtherError "flood wait")).

Definition out_of_order_run : Result unit * World :=
  replay_messages out_of_order_env (ById 1)
                  [tagged_news 101; tagged_news 103; tagged_news 102] fetched_100.

End Cases.

(** ** More concrete runs *)

Module Runs.
Import Scenario Cases.

(** A text in two parts sent with an image. *)
Definition with_image_run : Result (list DMessage) * World :=
  forward_to_discord two_parts_env 10 "#news" (Some "photo.png") (Some 30) empty_world.

(** A text that splits into no part. *)
Definition no_part_env : Env :=
  with_split (with_hashtags (quiet (settings [news])) (fun _ => ["#news"]))
             (fun _ => []).

Definition no_part_run : Result unit * World :=
  deliver_and_record no_part_env long_news news 10 "" None empty_world.

(** The history of the destination channel may not be read. *)
Definition history_forbidden_env : Env :=
  with_history kept_reference_env (fun _ _ _ => inl Forbidden).

(** The destination answers [Forbidden] when message 50 is fetched. *)
Definition fetch_forbidden_env : Env :=
  with_fetch_message (quiet (settings [news; mirror]))
                     (fun _ ch id => if Z.eqb id 50 then inl Forbidden
                                     else inr (Some (mkDM id ch "" None))).

(** The internet connection is down at every moment. *)
Definition down_env : Env :=
  with_internet (with_last_messages (quiet (settings [news])) (last_messages ["news"]))
                (fun _ => false).

End Runs.

Module Accounts.
Import Scenario.

(** The account sees a private chat named like the channel, the channel
    [Newsroom] (id 1) and another channel (id 2). *)
Definition dialogs : list Dialog :=
  [mkDialog "Newsroom" 77 0 false; mkDialog "Newsroom" 1 4242 true;
   mkDialog "Lounge" 2 4343 true].

(** A route that names its source channel by display name. *)
Definition by_name : ForwarderConfig :=
  mkForwarder "by_name" (ByName "Newsroom") 10 true [] [mkTag "#draft" false] ∅ false.

Definition by_name_env : Env := quiet (settings [by_name]).

End Accounts.

(** * Properties *)

(** ** The monad *)

Lemma bind_Ok {A B} (m : M A) (k : A -> M B) w a w' :
  m w = (Ok a, w') -> bind m k w = k a w'.
Proof. intros H. unfold bind. now rewrite H. Qed.

Lemma bind_Raise {A B} (m : M A) (k : A -> M B) w e w' :
  m w = (Raise e, w') -> bind m k w = (Raise e, w').
Proof. intros H. unfold bind. now rewrite H. Qed.

Lemma bind_inv_Ok {A B} (m : M A) (k : A -> M B) w b w' :
  bind m k w = (Ok b, w') ->
  exists a w1, m w = (Ok a, w1) /\ k a w1 = (Ok b, w').
Proof.
  unfold bind. destruct (m w) as [[a|e] w1]; intros H.
  - eauto.
  - discriminate.
Qed.


(** ** Routing *)

Lemma py_in_true x l : py_in x l = true <-> In x l.
Proof.
  unfold py_in. rewrite existsb_exists. split.
  - intros (y & Hy & Heq). apply String.eqb_eq in Heq. now subst.
  - intros H. exists x. split; [exact H | apply String.eqb_refl].
Qed.

Lemma truthy_list_In {A} (x : A) l : In x l -> truthy_list l = true.
Proof. destruct l; [intros [] | reflexivity]. Qed.

Lemma matching_tags_In E tags hashtags tag :
  In tag tags -> In (str_lower E (tag_name tag)) hashtags ->
  In tag (matching_tags E tags hashtags).
Proof.
  intros Ht Hh. unfold matching_tags. apply filter_In. split; [exact Ht |].
  now apply py_in_true.
Qed.

Lemma length_pos_In {A} (x : A) l : In x l -> (0 <? length l)%nat = true.
Proof. destruct l; [intros [] | reflexivity]. Qed.

(** The deny-list step is the last one to set [should_forward]. *)
Lemma routing_decision_denied E f msg hashtags tag :
  In tag (excluded_hashtags f) ->
  In (str_lower E (tag_name tag)) (get_message_forward_hashtags E msg) ->
  should_forward (routing_decision E f msg hashtags) = false.
Proof.
  intros Ht Hh. unfold routing_decision.
  rewrite (truthy_list_In tag _ Ht).
  rewrite (length_pos_In tag _ (matching_tags_In E _ _ _ Ht Hh)).
  destruct (negb (forward_everything f) || truthy_dict (mention_override f)).
  - destruct (0 <? _)%nat; reflexivity.
  - reflexivity.
Qed.

(** A route that decides not to forward does nothing at all. *)
Lemma not_forwarded_no_effect E f msg hashtags w :
  should_forward (routing_decision E f msg hashtags) = false ->
  handle_new_message_for E msg f hashtags w
  = (Ok (hashtags_local (routing_decision E f msg hashtags)), w).
Proof. intros H. unfold handle_new_message_for. rewrite H. reflexivity. Qed.

(** ** Framing *)

Lemma sent_messages_app a b : sent_messages (a ++ b) = sent_messages a ++ sent_messages b.
Proof. unfold sent_messages. apply omap_app. Qed.

Lemma forwarded_ids_app a b : forwarded_ids (a ++ b) = forwarded_ids a ++ forwarded_ids b.
Proof. unfold forwarded_ids. apply omap_app. Qed.

Lemma sent_messages_map_Sent l : sent_messages (map Sent l) = l.
Proof.
  unfold sent_messages. induction l as [|m l IH]; [reflexivity |].
  simpl. f_equal. exact IH.
Qed.

Lemma forwarded_ids_map_Sent l : forwarded_ids (map Sent l) = [].
Proof. induction l as [|m l IH]; [reflexivity | exact IH]. Qed.

#[global] Instance same_mappings_frame : Frame same_mappings.
Proof.
  split; unfold same_mappings.
  - reflexivity.
  - intros a b c H1 H2. congruence.
Qed.

#[global] Instance silent_frame : Frame silent.
Proof.
  split; unfold silent.
  - intros w. repeat split.
  - intros a b c (?&?&?&?) (?&?&?&?). repeat split; congruence.
Qed.

#[global] Instance only_clock_frame : Frame only_clock.
Proof.
  split; unfold only_clock.
  - intros w. repeat split.
  - intros a b c (?&?&?) (?&?&?). repeat split; congruence.
Qed.

#[global] Instance writes_within_frame P : Frame (writes_within P).
Proof.
  split; unfold writes_within.
  - reflexivity.
  - intros a b c H1 H2 k Hk. rewrite H2, H1; auto.
Qed.

#[global] Instance grows_frame : Frame grows.
Proof.
  split; unfold grows.
  - intros w. exists []. now rewrite app_nil_r.
  - intros a b c [e1 H1] [e2 H2]. exists (e1 ++ e2). now rewrite H2, H1, app_assoc.
Qed.

#[global] Instance grows_timeless : Timeless grows.
Proof. intros w w' (_ & _ & Ht). exists []. now rewrite app_nil_r. Qed.

#[global] Instance grows_appending : Appending grows.
Proof. intros e w. now exists [e]. Qed.

#[global] Instance written_after_send_frame P : Frame (written_after_send P).
Proof.
  split; unfold written_after_send.
  - intros w. exists []. rewrite app_nil_r. auto.
  - intros a b c (e1 & H1 & K1) (e2 & H2 & K2). exists (e1 ++ e2).
    split; [now rewrite H2, H1, app_assoc |].
    intros k. destruct (K2 k) as [Hsame|(HP & m & Hin & Hm)].
    + rewrite Hsame. destruct (K1 k) as [Hsame1|(HP & m & Hin & Hm)]; [now left |].
      right. split; [exact HP |]. exists m. split; [| exact Hm].
      apply in_or_app. now left.
    + right. split; [exact HP |]. exists m. split; [| exact Hm].
      apply in_or_app. now right.
Qed.

#[global] Instance written_after_send_timeless P : Timeless (written_after_send P).
Proof.
  intros w w' (Hm & _ & Ht). exists []. rewrite app_nil_r, Hm. auto.
Qed.

#[global] Instance written_after_send_appending P : Appending (written_after_send P).
Proof. intros e w. exists [e]. simpl. auto. Qed.

#[global] Instance no_delivery_frame : Frame no_delivery.
Proof.
  split; unfold no_delivery.
  - intros w. repeat split.
  - intros a b c (?&?&?) (?&?&?). repeat split; congruence.
Qed.

#[global] Instance no_delivery_unobservant : Unobservant no_delivery.
Proof. intros w w' (Hm & Hs & Ht & _). repeat split; assumption. Qed.


Lemma written_after_send_grows P w w' : written_after_send P w w' -> grows w w'.
Proof. intros (evs & Htr & _). now exists evs. Qed.

#[global] Instance same_mappings_store_only : StoreOnly same_mappings.
Proof. intros w w' H. exact H. Qed.

#[global] Instance writes_within_store_only P : StoreOnly (writes_within P).
Proof. intros w w' H k _. now rewrite H. Qed.

#[global] Instance store_only_unobservant R `{!StoreOnly R} : Unobservant R.
Proof. intros w w' (H & _). now apply store_only. Qed.

#[global] Instance unobservant_timeless R `{!Unobservant R} : Timeless R.
Proof.
  intros w w' (Hm & Hs & Ht). apply unobservant. unfold silent.
  rewrite Hm, Hs, Ht. repeat split.
Qed.

#[global] Instance only_clock_timeless : Timeless only_clock.
Proof. intros w w' H. exact H. Qed.

#[global] Instance silent_unobservant : Unobservant silent.
Proof. intros w w' H. exact H. Qed.


Section Respects.

Context (R : World -> World -> Prop) `{!Frame R}.

Lemma respects_ret {A} (a : A) : respects R (ret a).
Proof. intros w. apply frame_refl. Qed.

Lemma respects_raise {A} (e : exn) : respects R (@raise A e).
Proof. intros w. apply frame_refl. Qed.

Lemma respects_now : respects R now.
Proof. intros w. apply frame_refl. Qed.

Lemma respects_bind {A B} (m : M A) (k : A -> M B) :
  respects R m -> (forall a, respects R (k a)) -> respects R (bind m k).
Proof.
  intros Hm Hk w. unfold bind. specialize (Hm w).
  destruct (m w) as [[a|e] w1]; simpl in *.
  - eapply frame_trans; [exact Hm | apply Hk].
  - exact Hm.
Qed.

Lemma respects_try_except {A} (body : M A) handler :
  respects R body ->
  (forall e h, handler e = Some h -> respects R h) ->
  respects R (try_except body handler).
Proof.
  intros Hb Hh w. unfold try_except. specialize (Hb w).
  destruct (body w) as [[a|e] w1]; simpl in *; [exact Hb |].
  destruct (handler e) as [h|] eqn:He; [| exact Hb].
  eapply frame_trans; [exact Hb | eapply Hh, He].
Qed.

Lemma respects_lift_sum {A} (r : exn + A) : respects R (lift_sum r).
Proof. destruct r; [apply respects_raise | apply respects_ret]. Qed.

Lemma respects_lift_opt_exn r : respects R (lift_opt_exn r).
Proof. destruct r; [apply respects_raise | apply respects_ret]. Qed.

Lemma respects_for_each {A} (body : A -> M Flow) l :
  (forall x, respects R (body x)) -> respects R (for_each body l).
Proof.
  intros Hb. induction l as [|x l IH]; simpl.
  - apply respects_ret.
  - apply respects_bind; [apply Hb |].
    intros [|]; [exact IH | apply respects_ret].
Qed.

Context `{!Timeless R}.

Lemma respects_tick : respects R tick.
Proof. intros w. apply timeless. repeat split. Qed.

Context `{!Unobservant R}.

Lemma respects_emit e : quiet_event e = true -> respects R (emit e).
Proof.
  intros He w. apply unobservant. unfold silent. simpl.
  rewrite sent_messages_app, forwarded_ids_app.
  repeat split.
  - destruct e; try discriminate; simpl; now rewrite app_nil_r.
  - destruct e as [| | | |[]]; try discriminate; simpl; now rewrite app_nil_r.
Qed.

Lemma respects_sleep s : respects R (sleep s).
Proof.
  unfold sleep. apply respects_bind; [apply respects_tick |].
  intros _. now apply respects_emit.
Qed.

Lemma respects_get_discord_message_id name tg :
  respects R (History.get_discord_message_id name tg).
Proof. intros w. apply frame_refl. Qed.

Lemma respects_get_mappings : respects R History.get_mappings.
Proof. intros w. apply frame_refl. Qed.

End Respects.

Lemma respects_emit_any R `{!StoreOnly R} e : respects R (emit e).
Proof. intros w. now apply store_only. Qed.

Lemma respects_save_missed_message R `{!StoreOnly R} name tg ch ex :
  respects R (History.save_missed_message name tg ch ex).
Proof. intros w. now apply store_only. Qed.

Lemma respects_save_mapping_data (P : string * Z -> Prop) name tg d :
  P (name, tg) -> respects (writes_within P) (History.save_mapping_data name tg d).
Proof.
  intros HP w k Hk. simpl. apply lookup_insert_ne. intros <-. now apply Hk.
Qed.

Lemma respects_writes_within_mono (P Q : string * Z -> Prop) {A} (m : M A) :
  (forall k, P k -> Q k) -> respects (writes_within P) m -> respects (writes_within Q) m.
Proof. intros HPQ Hm w k Hk. apply Hm. intros HP. apply Hk, HPQ, HP. Qed.

Lemma except_discord_errors_Some {A} (h h' : M A) e :
  except_discord_errors h e = Some h' -> h' = h.
Proof.
  unfold except_discord_errors.
  destruct (isinstance e CNotFound), (isinstance e CForbidden),
    (isinstance e CHTTPException); congruence.
Qed.

(** One step of a framing proof, following the shape of the program. *)
Ltac respects_step :=
  lazymatch goal with
  | H : except_discord_errors _ _ = Some _ |- _ =>
      apply except_discord_errors_Some in H; subst
  | H : (if ?c then _ else _) = Some _ |- _ =>
      destruct c; [| discriminate H]; injection H as <-
  | |- respects ?R (bind ?m ?k) => apply (respects_bind R m k); [| intros ?]
  | |- respects ?R (ret ?a) => apply (respects_ret R a)
  | |- respects ?R (raise ?e) => apply (respects_raise R e)
  | |- respects ?R now => apply (respects_now R)
  | |- respects ?R tick => apply (respects_tick R)
  | |- respects ?R (sleep ?s) => first [ apply (respects_sleep R s) | unfold sleep ]
  | |- respects ?R (emit ?e) =>
      first [ apply (respects_emit R e); reflexivity | apply (respects_emit_any R e)
            | exact (appending e) ]
  | |- respects ?R (lift_sum ?r) => apply (respects_lift_sum R r)
  | |- respects ?R (lift_opt_exn ?r) => apply (respects_lift_opt_exn R r)
  | |- respects ?R (History.get_discord_message_id ?n ?t) =>
      apply (respects_get_discord_message_id R n t)
  | |- respects ?R History.get_mappings => apply (respects_get_mappings R)
  | |- respects ?R (History.save_missed_message ?n ?t ?c ?x) =>
      apply (respects_save_missed_message R n t c x)
  | |- respects ?R (try_except ?b ?h) =>
      apply (respects_try_except R b h); [| intros ? ? ?]
  | |- respects ?R (for_each ?b ?l) => apply (respects_for_each R b l); intros ?
  | |- respects _ (match ?x with _ => _ end) => destruct x
  end.

Ltac respects_auto := repeat respects_step.

Section Destination.

Context (E : Env) (R : World -> World -> Prop) `{!Frame R} `{!Timeless R}.

Lemma respects_fetch_message ch id : respects R (fetch_message E ch id).
Proof. unfold fetch_message. respects_auto. Qed.

Lemma respects_channel_history ch around limit :
  respects R (channel_history E ch around limit).
Proof. unfold channel_history. respects_auto. Qed.

Lemma respects_utils_get_discord_message_id reply_to :
  respects R (get_discord_message_id E reply_to).
Proof. intros w. apply frame_refl. Qed.

Lemma respects_fetch_discord_reference msg ch :
  respects R (fetch_discord_reference E msg ch).
Proof.
  unfold fetch_discord_reference.
  respects_step; [apply respects_utils_get_discord_message_id |]. respects_auto.
  all: try apply respects_channel_history; respects_auto.
Qed.

Lemma respects_call_fetch_discord_reference msg name ch :
  respects R (call_fetch_discord_reference msg name ch).
Proof. unfold call_fetch_discord_reference. respects_auto. Qed.

Context `{!Unobservant R}.

Lemma respects_message_edit m content : respects R (message_edit E m content).
Proof. unfold message_edit. respects_auto. Qed.

Lemma respects_message_delete m : respects R (message_delete E m).
Proof. unfold message_delete. respects_auto. Qed.

Lemma respects_edit_for msg f : respects R (edit_for E msg f).
Proof.
  unfold edit_for. respects_auto.
  all: try apply respects_fetch_message; respects_auto.
  all: try apply respects_message_edit; respects_auto.
Qed.

Lemma respects_handle_edit_message event_message :
  respects R (_handle_edit_message E event_message).
Proof.
  unfold _handle_edit_message. respects_auto. apply respects_edit_for.
Qed.

Lemma respects_delete_for f deleted_id : respects R (delete_for E f deleted_id).
Proof.
  unfold delete_for. respects_auto.
  all: try apply respects_fetch_message; respects_auto.
  all: try apply respects_message_delete; respects_auto.
Qed.

Lemma respects_handle_deleted_message event :
  respects R (_handle_deleted_message E event).
Proof.
  unfold _handle_deleted_message. respects_auto. apply respects_delete_for.
Qed.

End Destination.

(** The scenarios of the routing policy: an event tagged [#alert] on a route
    whose allow-list has it is forwarded, an event with no tag is not. *)
Example allow_tag_forwards :
  let alerts := mkForwarder "news" (ById 1) 10 false [mkTag "alert" false] [] ∅ false in
  let E tags := Scenario.with_hashtags (Scenario.quiet (Scenario.settings [alerts])) (fun _ => tags) in
  should_forward (routing_decision (E ["alert"]) alerts Cases.hello None) = true /\
  should_forward (routing_decision (E []) alerts Cases.hello None) = false /\
  _handle_new_message (E []) Cases.hello Scenario.empty_world = (Ok tt, Scenario.empty_world).
Proof. repeat split; vm_compute; reflexivity. Qed.

Example deny_overrides_allow :
  should_forward (routing_decision Cases.news_draft_env Scenario.news Cases.news_draft None)
  = false.
Proof. reflexivity. Qed.

(** C2, as stated, does not hold: a deny tag [#draft] matches the hashtag
    [#DRAFT] when case is ignored ([str.lower] gives the same for both), yet
    the route forwards the event.  Only the configured name is lower-cased
    before it is looked for among the extracted hashtags. *)
Lemma C2_mixed_case_hashtag_is_forwarded :
  ~ (forall E f msg hashtags h tag,
       In h (get_message_forward_hashtags E msg) ->
       In tag (excluded_hashtags f) ->
       str_lower E h = str_lower E (tag_name tag) ->
       should_forward (routing_decision E f msg hashtags) = false).
Proof.
  intros claim.
  specialize (claim Cases.shouting_env Scenario.all_but_drafts Cases.shouting_draft None
                    "#DRAFT" (mkTag "#draft" false)).
  assert (H : should_forward
                (routing_decision Cases.shouting_env Scenario.all_but_drafts
                                  Cases.shouting_draft None) = true) by reflexivity.
  rewrite claim in H.
  - discriminate H.
  - simpl. auto.
  - simpl. auto.
  - reflexivity.
Qed.

(** C2, amended: when an extracted hashtag matches a deny-list tag with case
    ignored (both have the same [str.lower]) and the hashtag is extracted in
    lower case ([str.lower] leaves it as it is), the routing decision has
    [should_forward = false] whatever the allow-list and [forward_everything]
    say, and the route does nothing for the event.  Nothing is assumed of
    [str.lower]. *)
Theorem C2_deny_list_takes_precedence E f msg hashtags h tag :
  In h (get_message_forward_hashtags E msg) ->
  In tag (excluded_hashtags f) ->
  str_lower E h = str_lower E (tag_name tag) ->
  str_lower E h = h ->
  should_forward (routing_decision E f msg hashtags) = false /\
  forall w, exists hashtags',
    handle_new_message_for E msg f hashtags w = (Ok hashtags', w).
Proof.
  intros Hh Ht Hci Hlow.
  assert (Hd : should_forward (routing_decision E f msg hashtags) = false).
  { apply routing_decision_denied with (tag := tag); [exact Ht |].
    rewrite <- Hci, Hlow. exact Hh. }
  split; [exact Hd |].
  intros w. eexists. now apply not_forwarded_no_effect.
Qed.

Lemma C2_deny_list_takes_precedence_witness :
  should_forward
    (routing_decision Cases.news_draft_env Scenario.news Cases.news_draft None) = false /\
  forall w, exists hashtags',
    handle_new_message_for Cases.news_draft_env Cases.news_draft Scenario.news None w
    = (Ok hashtags', w).
Proof.
  apply (C2_deny_list_takes_precedence Cases.news_draft_env Scenario.news Cases.news_draft
           None "#draft" (mkTag "#draft" false)).
  - simpl. auto.
  - simpl. auto.
  - reflexivity.
  - reflexivity.
Defined.

(** C10: on a route with [forward_everything], no mention override and no
    deny-list, met first among the matching routes, neither branch that
    assigns [message_forward_hashtags] is taken.  The handler then raises
    before anything is sent or recorded: once the destination channel is
    resolved it reads the unassigned variable, which is an unbound-local
    error. *)
Theorem C10_unbound_hashtags_variable E msg f rest w :
  get_matching_forwarders E (peer_channel_id msg) = f :: rest ->
  forward_everything f = true ->
  mention_override f = ∅ ->
  excluded_hashtags f = [] ->
  (exists e, _handle_new_message E msg w = (Raise e, w)) /\
  (forall discord_channel,
     get_channel E (discord_channel_id f) = Some discord_channel ->
     _handle_new_message E msg w
     = (Raise (UnboundLocalError "message_forward_hashtags"), w)).
Proof.
  intros Hm Hfe Hmo Hex.
  assert (Hstep : _handle_new_message E msg w =
                  match get_channel E (discord_channel_id f) with
                  | Some _ => (Raise (UnboundLocalError "message_forward_hashtags"), w)
                  | None => (Raise (AttributeError "guild"), w)
                  end).
  { unfold _handle_new_message. rewrite Hm. simpl.
    unfold bind, handle_new_message_for, routing_decision.
    rewrite Hfe, Hmo, Hex. unfold truthy_dict. rewrite map_to_list_empty. simpl.
    unfold forward_on_route, bind.
    destruct (get_channel E (discord_channel_id f)); reflexivity. }
  split.
  - rewrite Hstep. destruct (get_channel E (discord_channel_id f)); eexists; reflexivity.
  - intros discord_channel Hch. now rewrite Hstep, Hch.
Qed.

Lemma C10_unbound_hashtags_variable_witness :
  (exists e, _handle_new_message Cases.all_env Cases.hello Scenario.empty_world
             = (Raise e, Scenario.empty_world)) /\
  _handle_new_message Cases.all_env Cases.hello Scenario.empty_world
  = (Raise (UnboundLocalError "message_forward_hashtags"), Scenario.empty_world).
Proof.
  destruct (C10_unbound_hashtags_variable Cases.all_env Cases.hello Scenario.all []
              Scenario.empty_world eq_refl eq_refl eq_refl eq_refl) as [Hraise Hunbound].
  split; [exact Hraise |].
  apply (Hunbound (mkChannel 20 [])). reflexivity.
Defined.

(** ** Delivery *)

Ltac inv_bind H :=
  let a := fresh "a" in
  let w1 := fresh "w" in
  let H1 := fresh "Hrun" in
  apply bind_inv_Ok in H as (a & w1 & H1 & H).

Lemma channel_send_run E ch content file reference w :
  channel_send E ch content file reference w =
  match send_outcome E (clock w) ch content file reference with
  | inr id =>
      let m := mkDM id ch content reference in
      (Ok m, mkWorld (S (clock w)) (mappings w) (missed w) (trace w ++ [Sent m]))
  | inl e => (Raise e, mkWorld (S (clock w)) (mappings w) (missed w) (trace w))
  end.
Proof.
  unfold channel_send, bind, tick, lift_sum. simpl.
  destruct (send_outcome E (clock w) ch content file reference); reflexivity.
Qed.

Lemma emit_all_run l w :
  emit_all l w = (Ok tt, mkWorld (clock w) (mappings w) (missed w) (trace w ++ l)).
Proof.
  revert w. induction l as [|e l IH]; intros w; simpl.
  - rewrite app_nil_r. now destruct w.
  - unfold bind, emit. simpl. rewrite IH. simpl. now rewrite <- app_assoc.
Qed.

(** Every run of the loop of [forward_to_discord] sends a prefix of the parts,
    in order and all with the same reference; it sends them all when it
    returns, and stops at the first send that fails when it raises. *)
Lemma send_parts_run E ch reference parts : forall acc w r w',
  send_parts E ch reference parts acc w = (r, w') ->
  exists sent,
    trace w' = trace w ++ map Sent sent /\
    mappings w' = mappings w /\ missed w' = missed w /\
    Forall (fun m => dm_reference m = reference /\ dm_channel m = ch) sent /\
    map dm_content sent = take (length sent) parts /\
    match r with
    | Ok l => l = acc ++ sent /\ length sent = length parts
    | Raise e =>
        exists part, nth_error parts (length sent) = Some part /\
          send_outcome E (clock w + length sent)%nat ch part None reference = inl e
    end.
Proof.
  induction parts as [|part rest IH]; intros acc w r w' H; simpl in H.
  - inversion H; subst. exists []. simpl. rewrite !app_nil_r. repeat split. constructor.
  - unfold bind in H. rewrite channel_send_run in H.
    destruct (send_outcome E (clock w) ch part None reference) as [e|id] eqn:Hout.
    + inversion H; subst. exists []. simpl. rewrite app_nil_r.
      repeat split; [constructor |].
      exists part. split; [reflexivity |]. now rewrite Nat.add_0_r.
    + simpl in H. apply IH in H as (sent & Htr & Hmap & Hmis & Hall & Hcont & Hr).
      simpl in *. exists (mkDM id ch part reference :: sent). simpl.
      rewrite Htr, <- app_assoc. repeat split; auto.
      * now rewrite Hcont.
      * destruct r as [l|e].
        -- destruct Hr as [-> Hlen]. rewrite <- app_assoc. split; [reflexivity | lia].
        -- destruct Hr as (p & Hp & Hsend). exists p. split; [exact Hp |].
           rewrite <- Hsend. f_equal. lia.
Qed.


Lemma handle_message_media_run E msg ch text reference w r w' :
  handle_message_media E msg ch text reference w = (r, w') ->
  mappings w' = mappings w /\ missed w' = missed w /\
  match r with
  | Ok sent => trace w' = trace w ++ map Sent sent
  | Raise _ => trace w' = trace w
  end.
Proof.
  unfold handle_message_media, bind, tick, lift_sum. simpl.
  destruct (media_outcome E (clock w) msg ch text reference) as [e|sent]; simpl.
  - intros H. inversion H; subst. repeat split.
  - rewrite emit_all_run. simpl. intros H. inversion H; subst. repeat split.
Qed.

(** What a delivery that returns has done: the messages it answers are the
    messages it sent, in send order. *)
Lemma deliver_Ok E msg ch text reference w sent w' :
  deliver E msg ch text reference w = (Ok sent, w') ->
  trace w' = trace w ++ map Sent sent /\
  mappings w' = mappings w /\ missed w' = missed w.
Proof.
  unfold deliver. destruct (tg_media msg).
  - intros H. apply handle_message_media_run in H as (? & ? & ?). auto.
  - unfold forward_to_discord. intros H.
    apply send_parts_run in H as (sent' & Htr & Hmap & Hmis & _ & _ & Hr & _).
    simpl in Hr. subst. auto.
Qed.

Lemma deliver_and_record_Ok E msg f ch text reference w w' :
  deliver_and_record E msg f ch text reference w = (Ok tt, w') ->
  exists sent,
    trace w' = trace w ++ map Sent sent /\
    match sent with
    | main :: _ =>
        mappings w' = <[(forwarder_name f, tg_id msg) := dm_id main]> (mappings w) /\
        missed w' = missed w
    | [] =>
        mappings w' = mappings w /\
        missed w' = missed w ++ [mkMissed (forwarder_name f) (tg_id msg)
                                          (discord_channel_id f) None]
    end.
Proof.
  unfold deliver_and_record. intros H. inv_bind H. rename a into sent.
  apply deliver_Ok in Hrun as (Htr & Hmap & Hmis).
  exists sent. destruct sent as [|main rest]; simpl in H; inversion H; subst; simpl.
  - rewrite Htr, Hmap, Hmis. auto.
  - rewrite Htr, Hmap, Hmis. auto.
Qed.

(** Before the delivery, a route step only passes suspension points: it
    either reaches [deliver_and_record] or raises with nothing done. *)
Lemma forward_on_route_inv E msg f mention hashtags w r w' :
  forward_on_route E msg f mention hashtags w = (r, w') ->
  (exists w1 ch text reference,
      only_clock w w1 /\
      deliver_and_record E msg f ch text reference w1 = (r, w')) \/
  (exists e, r = Raise e /\ only_clock w w').
Proof.
  unfold forward_on_route. intros H. unfold bind at 1 in H.
  destruct (get_channel E (discord_channel_id f)) as [c|]; simpl in H.
  2: { inversion H; subst. right. eexists. split; [reflexivity | apply frame_refl]. }
  unfold bind at 1 in H.
  destruct hashtags as [tags|]; simpl in H.
  2: { inversion H; subst. right. eexists. split; [reflexivity | apply frame_refl]. }
  unfold bind at 1 in H. simpl in H. unfold bind at 1 in H.
  destruct (process_message_text E (clock w) msg f mention _ _) as [e|text]; simpl in H.
  { inversion H; subst. right. eexists. split; [reflexivity |]. repeat split. }
  unfold bind at 1 in H.
  set (w0 := mkWorld (S (clock w)) (mappings w) (missed w) (trace w)) in H.
  assert (Hw0 : only_clock w w0) by (repeat split).
  match type of H with
  | match ?m w0 with _ => _ end = _ =>
      assert (Hresp : respects only_clock m); [| specialize (Hresp w0); destruct (m w0) as [[reference|e] w1] ]
  end.
  { destruct (truthy_id (reply_to_msg_id msg)).
    - apply respects_call_fetch_discord_reference; typeclasses eauto.
    - apply respects_ret; typeclasses eauto. }
  - left. exists w1, (ch_id c), text, reference. split; [| exact H].
    eapply frame_trans; [exact Hw0 | exact Hresp].
  - inversion H; subst. right. eexists. split; [reflexivity |].
    eapply frame_trans; [exact Hw0 | exact Hresp].
Qed.

Lemma forward_on_route_Ok E msg f mention hashtags w w' :
  forward_on_route E msg f mention hashtags w = (Ok tt, w') ->
  exists sent,
    trace w' = trace w ++ map Sent sent /\
    match sent with
    | main :: _ =>
        mappings w' = <[(forwarder_name f, tg_id msg) := dm_id main]> (mappings w) /\
        missed w' = missed w
    | [] =>
        mappings w' = mappings w /\
        missed w' = missed w ++ [mkMissed (forwarder_name f) (tg_id msg)
                                          (discord_channel_id f) None]
    end.
Proof.
  intros H. apply forward_on_route_inv in H as [(w1 & ch & text & rf & Hc & H)|(e & He & _)].
  2: discriminate He.
  destruct Hc as (Hm & Hs & Ht).
  apply deliver_and_record_Ok in H as (sent & Htr & Hrec).
  exists sent. rewrite Htr, Ht. split; [reflexivity |].
  destruct sent; rewrite <- Hm, <- Hs; exact Hrec.
Qed.




Example two_parts_handled :
  let w' := (_handle_new_message Cases.two_parts_env Cases.long_news Scenario.empty_world).2 in
  map dm_id (sent_messages (trace w')) = [1001; 1002] /\
  mappings w' !! ("news", 7) = Some 1001.
Proof. split; reflexivity. Qed.


Example failed_send_leaves_handler :
  (_handle_new_message Cases.forbidden_env Cases.long_news Scenario.empty_world).1
  = Raise Forbidden.
Proof. reflexivity. Qed.



(** ** Reply references *)

Lemma channel_history_run E ch around limit w :
  channel_history E ch around limit w =
  let w1 := mkWorld (S (clock w)) (mappings w) (missed w) (trace w) in
  match history_outcome E (clock w) ch around with
  | inr l => (Ok l, w1)
  | inl e => (Raise e, w1)
  end.
Proof.
  unfold channel_history, bind, tick, lift_sum. simpl.
  destruct (history_outcome E (clock w) ch around); reflexivity.
Qed.

(** The body of [fetch_discord_reference], case by case: [d] is what the
    lookup of [utils] answers for the replied-to message. *)
Lemma fetch_discord_reference_run E msg ch w :
  fetch_discord_reference E msg ch w =
  let w1 := mkWorld (S (clock w)) (mappings w) (missed w) (trace w) in
  match utils_get_discord_message_id E w (reply_to_msg_id msg) with
  | Some d =>
      if Z.eqb d 0 then (Ok None, w)
      else match history_outcome E (clock w) ch d with
           | inr l => (Ok (dm_id <$> find (fun m => Z.eqb (dm_id m) d) l), w1)
           | inl NotFound => (Ok None, w1)
           | inl e => (Raise e, w1)
           end
  | None => (Ok None, w)
  end.
Proof.
  unfold fetch_discord_reference, get_discord_message_id. unfold bind at 1.
  destruct (utils_get_discord_message_id E w (reply_to_msg_id msg)) as [d|]; simpl;
    [| reflexivity].
  destruct (Z.eqb d 0); simpl; [reflexivity |].
  unfold try_except, bind. rewrite channel_history_run. simpl.
  destruct (history_outcome E (clock w) ch d) as [e|l]; simpl.
  - destruct e; reflexivity.
  - destruct (find _ _); reflexivity.
Qed.

Lemma find_by_id d l m :
  In m l -> dm_id m = d ->
  dm_id <$> find (fun m => Z.eqb (dm_id m) d) l = Some d.
Proof.
  intros Hin Hid. destruct (find _ l) as [m'|] eqn:Hf; simpl.
  - apply find_some in Hf as [_ Heq]. apply Z.eqb_eq in Heq. now rewrite Heq.
  - apply (find_none _ _ Hf) in Hin. apply Z.eqb_neq in Hin. contradiction.
Qed.

Lemma find_by_id_absent d (l : list DMessage) :
  (forall m, In m l -> dm_id m <> d) ->
  dm_id <$> find (fun m => Z.eqb (dm_id m) d) l = None.
Proof.
  intros Hno. destruct (find _ l) as [m'|] eqn:Hf; simpl; [| reflexivity].
  apply find_some in Hf as [Hin Heq]. apply Z.eqb_eq in Heq. now apply Hno in Hin.
Qed.

(** Called as its declaration has it, the function answers the id its lookup
    gave when the history of the channel around that id has the message, and
    no reference when the history does not have it or answers not-found. *)
Lemma fetch_discord_reference_cases E msg ch w d :
  utils_get_discord_message_id E w (reply_to_msg_id msg) = Some d -> d <> 0 ->
  let w1 := mkWorld (S (clock w)) (mappings w) (missed w) (trace w) in
  (forall l m, history_outcome E (clock w) ch d = inr l -> In m l -> dm_id m = d ->
     fetch_discord_reference E msg ch w = (Ok (Some d), w1)) /\
  (forall l, history_outcome E (clock w) ch d = inr l ->
     (forall m, In m l -> dm_id m <> d) ->
     fetch_discord_reference E msg ch w = (Ok None, w1)) /\
  (history_outcome E (clock w) ch d = inl NotFound ->
     fetch_discord_reference E msg ch w = (Ok None, w1)).
Proof.
  intros Hmap Hd w1. apply Z.eqb_neq in Hd. split; [| split].
  - intros l m Hhist Hin Hid.
    rewrite fetch_discord_reference_run. simpl. rewrite Hmap, Hd, Hhist.
    now rewrite (find_by_id d _ m Hin Hid).
  - intros l Hhist Hno.
    rewrite fetch_discord_reference_run. simpl. rewrite Hmap, Hd, Hhist.
    now rewrite (find_by_id_absent d _ Hno).
  - intros Hhist. rewrite fetch_discord_reference_run. simpl. now rewrite Hmap, Hd, Hhist.
Qed.



(** The same reply, through the handler. *)
Example reply_is_not_delivered :
  _handle_new_message Cases.kept_reference_env Cases.reply_to_3 Cases.mapped_3
  = (Raise (TypeError "fetch_discord_reference() takes 2 positional arguments but 3 were given"),
     mkWorld 1 (mappings Cases.mapped_3) [] []).
Proof. reflexivity. Qed.

(** ** Framing the new-message handler *)

Section NewMessageFrame.

Context (E : Env) (R : World -> World -> Prop) `{!Frame R} `{!Timeless R}.
Variable msg : TgMessage.
Variable routes : list ForwarderConfig.

Hypothesis R_sent : forall m, respects R (emit (Sent m)).
Hypothesis R_missed : forall name tg ch ex,
  respects R (History.save_missed_message name tg ch ex).
Hypothesis R_mapping : forall f d, In f routes ->
  respects R (History.save_mapping_data (forwarder_name f) (tg_id msg) d).

Lemma respects_channel_send ch content file reference :
  respects R (channel_send E ch content file reference).
Proof. unfold channel_send. respects_auto. apply R_sent. Qed.

Lemma respects_send_parts ch reference parts :
  forall acc, respects R (send_parts E ch reference parts acc).
Proof.
  induction parts as [|part rest IH]; intros acc; simpl.
  - respects_auto.
  - respects_auto; [apply respects_channel_send | apply IH].
Qed.

Lemma respects_forward_to_discord ch text image_file reference :
  respects R (forward_to_discord E ch text image_file reference).
Proof.
  unfold forward_to_discord. respects_auto.
  all: first [apply respects_send_parts | apply respects_channel_send].
Qed.

Lemma respects_emit_all_Sent sent : respects R (emit_all (map Sent sent)).
Proof.
  induction sent as [|m rest IH]; simpl; respects_auto; [apply R_sent | exact IH].
Qed.

Lemma respects_handle_message_media ch text reference :
  respects R (handle_message_media E msg ch text reference).
Proof. unfold handle_message_media. respects_auto. apply respects_emit_all_Sent. Qed.

Lemma respects_deliver ch text reference : respects R (deliver E msg ch text reference).
Proof.
  unfold deliver. destruct (tg_media msg).
  - apply respects_handle_message_media.
  - apply respects_forward_to_discord.
Qed.

Lemma respects_record_delivery f sent :
  In f routes -> respects R (record_delivery msg f sent).
Proof.
  intros Hf. unfold record_delivery. destruct sent; [apply R_missed | now apply R_mapping].
Qed.

Lemma respects_forward_on_route f mention hashtags :
  In f routes -> respects R (forward_on_route E msg f mention hashtags).
Proof.
  intros Hf. unfold forward_on_route, deliver_and_record. respects_auto.
  all: first [ apply respects_call_fetch_discord_reference; typeclasses eauto
             | apply respects_deliver
             | now apply respects_record_delivery ].
Qed.

End NewMessageFrame.

(** The loop over the matching routes keeps what every route step keeps. *)
Section RouteLoopFrame.

Context (E : Env) (R : World -> World -> Prop) `{!Frame R}.
Variable msg : TgMessage.
Variable routes : list ForwarderConfig.

Hypothesis R_route : forall f mention hashtags, In f routes ->
  respects R (forward_on_route E msg f mention hashtags).

Lemma respects_handle_new_message_for f hashtags :
  In f routes -> respects R (handle_new_message_for E msg f hashtags).
Proof.
  intros Hf. unfold handle_new_message_for. respects_auto.
  now apply R_route.
Qed.

Lemma respects_new_message_loop forwarders :
  incl forwarders routes ->
  forall hashtags, respects R (new_message_loop E msg forwarders hashtags).
Proof.
  induction forwarders as [|f rest IH]; intros Hincl hashtags; simpl.
  - respects_auto.
  - respects_auto.
    + apply respects_handle_new_message_for, Hincl. now left.
    + apply IH. intros x Hx. apply Hincl. now right.
Qed.

Lemma respects_handle_new_message_by_route :
  incl (get_matching_forwarders E (peer_channel_id msg)) routes ->
  respects R (_handle_new_message E msg).
Proof.
  intros Hincl. unfold _handle_new_message. respects_auto.
  now apply respects_new_message_loop.
Qed.

End RouteLoopFrame.

Lemma respects_handle_new_message E R `{!Frame R} `{!Timeless R} msg routes :
  (forall m, respects R (emit (Sent m))) ->
  (forall name tg ch ex, respects R (History.save_missed_message name tg ch ex)) ->
  (forall f d, In f routes ->
     respects R (History.save_mapping_data (forwarder_name f) (tg_id msg) d)) ->
  incl (get_matching_forwarders E (peer_channel_id msg)) routes ->
  respects R (_handle_new_message E msg).
Proof.
  intros Hsent Hmissed Hmapping Hincl.
  apply (respects_handle_new_message_by_route E R msg routes); [| exact Hincl].
  intros f mention hashtags Hf.
  now apply (respects_forward_on_route E R msg routes Hsent Hmissed Hmapping).
Qed.

(** What a delivery has done when it ends, by returning or by raising: it
    has sent messages, and nothing else. *)
Lemma deliver_sends_only E msg ch text reference w r w' :
  deliver E msg ch text reference w = (r, w') ->
  mappings w' = mappings w /\ missed w' = missed w /\
  exists sent, trace w' = trace w ++ map Sent sent /\
               forall l, r = Ok l -> l = sent.
Proof.
  unfold deliver. destruct (tg_media msg).
  - intros H. apply handle_message_media_run in H as (Hm & Hs & Hr).
    split; [exact Hm |]. split; [exact Hs |]. destruct r as [sent|e].
    + exists sent. split; [exact Hr |]. intros l Hl. now injection Hl as <-.
    + exists []. simpl. rewrite app_nil_r. split; [exact Hr | discriminate].
  - unfold forward_to_discord. intros H.
    apply send_parts_run in H as (sent & Htr & Hm & Hs & _ & _ & Hr).
    split; [exact Hm |]. split; [exact Hs |]. exists sent. split; [exact Htr |].
    intros l ->. now destruct Hr as [-> _].
Qed.

(** The write that follows a delivery is the entry of the message delivered,
    and it holds the id of a message the delivery has sent. *)
Lemma deliver_and_record_written E (P : string * Z -> Prop) msg f ch text reference :
  P (forwarder_name f, tg_id msg) ->
  respects (written_after_send P) (deliver_and_record E msg f ch text reference).
Proof.
  intros HP w. unfold deliver_and_record, bind.
  destruct (deliver E msg ch text reference w) as [[l|e] w1] eqn:Hd;
    apply deliver_sends_only in Hd as (Hm & _ & sent & Htr & Hl).
  - rewrite (Hl l eq_refl). clear Hl.
    unfold record_delivery, History.save_mapping_data, History.save_missed_message.
    destruct sent as [|main rest]; cbn [snd mappings trace map].
    + exists []. split; [exact Htr |]. intros k. left. now rewrite Hm.
    + exists (Sent main :: map Sent rest). split; [exact Htr |].
      intros k. cbn [mappings].
      destruct (decide (k = (forwarder_name f, tg_id msg))) as [->|Hne].
      * right. split; [exact HP |]. exists main. split; [now left |].
        apply lookup_insert_eq.
      * left. rewrite lookup_insert_ne by congruence. now rewrite Hm.
  - simpl. exists (map Sent sent). rewrite Hm. auto.
Qed.

Lemma forward_on_route_written E (P : string * Z -> Prop) msg f mention hashtags :
  P (forwarder_name f, tg_id msg) ->
  respects (written_after_send P) (forward_on_route E msg f mention hashtags).
Proof.
  intros HP w.
  destruct (forward_on_route E msg f mention hashtags w) as [r w'] eqn:H.
  apply forward_on_route_inv in H as [(w1 & ch & text & rf & Hc & H)|(e & _ & Hc)]; simpl.
  - eapply frame_trans; [apply timeless, Hc |].
    pose proof (deliver_and_record_written E P msg f ch text rf HP w1) as Hw.
    now rewrite H in Hw.
  - apply timeless, Hc.
Qed.

(** Every entry the new-message handler writes is an entry of the message
    handled, under a route that matches its channel, and holds the id of a
    destination message sent in that run of the handler. *)
Lemma handle_new_message_written E msg :
  respects (written_after_send
              (fun k => exists f, In f (get_matching_forwarders E (peer_channel_id msg)) /\
                                  k = (forwarder_name f, tg_id msg)))
           (_handle_new_message E msg).
Proof.
  apply (respects_handle_new_message_by_route E _ msg
           (get_matching_forwarders E (peer_channel_id msg))).
  - intros f mention hashtags Hf. apply forward_on_route_written. eauto.
  - intros x Hx. exact Hx.
Qed.

(** ** The mapping store under the three handlers *)

(** C7, as stated, does not hold: the source message 5 is deleted, the
    destination message 50 it was mapped to is deleted on the destination,
    and the mapping is still in the store afterwards. *)
Lemma C7_mapping_survives_delete :
  ~ (forall E event w f deleted_id d,
       In f (get_matching_forwarders E (del_channel_id event)) ->
       In deleted_id (deleted_ids event) ->
       mappings w !! (forwarder_name f, deleted_id) = Some d ->
       In (Deleted d) (trace (_handle_deleted_message E event w).2) ->
       mappings (_handle_deleted_message E event w).2 !! (forwarder_name f, deleted_id)
       = None).
Proof.
  intros claim.
  assert (H : mappings (_handle_deleted_message Cases.news_env Cases.delete_5
                          Cases.mapped_5).2 !! (forwarder_name Scenario.news, 5) = None).
  { apply (claim Cases.news_env Cases.delete_5 Cases.mapped_5 Scenario.news 5 50).
    - simpl. auto.
    - simpl. auto.
    - reflexivity.
    - vm_compute. auto. }
  vm_compute in H. discriminate H.
Qed.

(** C7, amended: handling a delete event, like handling an edit event, leaves
    the mapping store as it was, so the mapping of a deleted message stays.
    Handling a new message writes no entry but the ones of that message under
    the routes that match its channel, and an entry it has written holds the
    id of a destination message that was sent in that run of the handler: no
    mapping is written without a delivery that sent a message. *)
Theorem C7_mappings_written_by_delivery_only E :
  (forall event w, mappings (_handle_deleted_message E event w).2 = mappings w) /\
  (forall event_message w,
     mappings (_handle_edit_message E event_message w).2 = mappings w) /\
  (forall msg w k,
     ~ (exists f, In f (get_matching_forwarders E (peer_channel_id msg)) /\
                  k = (forwarder_name f, tg_id msg)) ->
     mappings (_handle_new_message E msg w).2 !! k = mappings w !! k) /\
  (forall msg w k,
     let w' := (_handle_new_message E msg w).2 in
     mappings w' !! k <> mappings w !! k ->
     (exists f, In f (get_matching_forwarders E (peer_channel_id msg)) /\
                k = (forwarder_name f, tg_id msg)) /\
     exists evs m,
       trace w' = trace w ++ evs /\ In (Sent m) evs /\
       mappings w' !! k = Some (dm_id m)).
Proof.
  split; [| split; [| split]].
  - intros event w.
    apply (respects_handle_deleted_message E same_mappings event w).
  - intros event_message w.
    apply (respects_handle_edit_message E same_mappings event_message w).
  - intros msg w k Hk.
    destruct (handle_new_message_written E msg w) as (evs & _ & K).
    destruct (K k) as [H|(HP & _)]; [exact H | contradiction].
  - intros msg w k w' Hk.
    destruct (handle_new_message_written E msg w) as (evs & Htr & K).
    destruct (K k) as [H|(HP & m & Hin & Hm)]; [contradiction |].
    split; [exact HP |]. exists evs, m. auto.
Qed.

Lemma C7_mappings_written_by_delivery_only_witness :
  mappings (_handle_deleted_message Cases.news_env Cases.delete_5 Cases.mapped_5).2
  = mappings Cases.mapped_5 /\
  mappings (_handle_new_message Cases.two_parts_env Cases.long_news Cases.mapped_5).2
    !! ("news", 5)
  = mappings Cases.mapped_5 !! ("news", 5) /\
  exists evs m,
    trace (_handle_new_message Cases.two_parts_env Cases.long_news Cases.mapped_5).2
    = trace Cases.mapped_5 ++ evs /\ In (Sent m) evs /\
    mappings (_handle_new_message Cases.two_parts_env Cases.long_news Cases.mapped_5).2
      !! ("news", 7) = Some (dm_id m).
Proof.
  destruct (C7_mappings_written_by_delivery_only Cases.news_env) as (Hdel & _ & _ & _).
  destruct (C7_mappings_written_by_delivery_only Cases.two_parts_env)
    as (_ & _ & Hnew & Hsent).
  split; [apply Hdel |]. split.
  - apply Hnew. intros (f & Hin & Heq). simpl in Hin.
    destruct Hin as [<-|[]]. discriminate Heq.
  - refine (proj2 (Hsent Cases.long_news Cases.mapped_5 ("news", 7) _)).
    vm_compute. discriminate.
Defined.

(** ** Framing the recovery loop *)

(** The replay of fetched messages keeps what the handler keeps for each of
    them. *)
Section ReplayFrame.

Context (E : Env) (R : World -> World -> Prop) `{!Frame R} `{!Timeless R} `{!Appending R}.
Variable Q : TgMessage -> Prop.

Hypothesis R_handler : forall msg, Q msg -> respects R (_handle_new_message E msg).

Lemma respects_replay_message c m : Q m -> respects R (replay_message E c m).
Proof.
  intros Hm. unfold replay_message. respects_auto. now apply R_handler.
Qed.

Lemma respects_replay_messages c msgs :
  Forall Q msgs -> respects R (replay_messages E c msgs).
Proof.
  induction 1 as [|m rest Hm _ IH]; simpl; respects_auto.
  - now apply respects_replay_message.
  - exact IH.
Qed.

End ReplayFrame.

Section RecoveryFrame.

Context (E : Env) (R : World -> World -> Prop) `{!Frame R} `{!Timeless R} `{!Appending R}.

Hypothesis R_handler : forall msg, respects R (_handle_new_message E msg).

Lemma respects_recover_forwarder last_message :
  respects R (recover_forwarder E last_message).
Proof.
  unfold recover_forwarder. destruct last_message as [name last]. respects_auto.
  apply (respects_replay_messages E R (fun _ => True)); [auto |].
  apply Forall_forall. auto.
Qed.

Lemma respects_recover_forwarders last_messages :
  respects R (recover_forwarders E last_messages).
Proof.
  induction last_messages as [|m rest IH]; simpl; respects_auto.
  - apply respects_recover_forwarder.
  - exact IH.
Qed.

Lemma respects_check_missed_messages : respects R (check_missed_messages E).
Proof.
  unfold check_missed_messages. respects_auto. apply respects_recover_forwarders.
Qed.

Lemma respects_recovery_pass : respects R (recovery_pass E).
Proof.
  unfold recovery_pass. respects_auto. apply respects_check_missed_messages.
Qed.

End RecoveryFrame.

(** The trace only grows in a run of the new-message handler, hence in the
    fetch and replay of a pass. *)
Lemma handle_new_message_grows E msg : respects grows (_handle_new_message E msg).
Proof.
  intros w. eapply written_after_send_grows. apply handle_new_message_written.
Qed.

Lemma check_missed_messages_grows E : respects grows (check_missed_messages E).
Proof.
  apply respects_check_missed_messages; try typeclasses eauto.
  apply handle_new_message_grows.
Qed.

(** ** Failures and the remaining routes *)

Lemma fetch_message_run E ch id w :
  fetch_message E ch id w =
  let w1 := mkWorld (S (clock w)) (mappings w) (missed w) (trace w) in
  match fetch_message_outcome E (clock w) ch id with
  | inr m => (Ok m, w1)
  | inl e => (Raise e, w1)
  end.
Proof.
  unfold fetch_message, bind, tick, lift_sum. simpl.
  destruct (fetch_message_outcome E (clock w) ch id); reflexivity.
Qed.

(** A destination failure in the [try] block of the edit loop ends the loop:
    the routes after the failing one are not looked at. *)
Lemma edit_failure_ends_loop E msg f rest w id discord_channel e :
  mappings w !! (forwarder_name f, tg_id msg) = Some id ->
  get_channel E (discord_channel_id f) = Some discord_channel ->
  fetch_message_outcome E (clock w) (ch_id discord_channel) id = inl e ->
  isinstance e CHTTPException = true ->
  for_each (edit_for E msg) (f :: rest) w
  = (Ok Return, mkWorld (S (clock w)) (mappings w) (missed w) (trace w)).
Proof.
  intros Hmap Hch Hfetch He.
  set (w1 := mkWorld (S (clock w)) (mappings w) (missed w) (trace w)).
  assert (Hone : edit_for E msg f w = (Ok Return, w1)).
  { unfold edit_for, bind at 1, History.get_discord_message_id.
    rewrite Hmap, Hch. unfold try_except.
    rewrite (bind_Raise _ _ w e w1) by (rewrite fetch_message_run, Hfetch; reflexivity).
    unfold except_discord_errors. destruct e; try discriminate He; reflexivity. }
  simpl. now rewrite (bind_Ok _ _ w Return w1 Hone).
Qed.

(** C4 on the code: an edit of source message 5 reaches two routes; the
    destination message of the first one is not found, the handler returns,
    and the message of the second route, which the destination still has, is
    never edited.  Handled alone, the second route edits it. *)
Theorem C4_edit_failure_skips_sibling_route :
  _handle_edit_message Cases.two_routes_env (Some Cases.edited_5) Cases.mapped_twice
  = (Ok tt, mkWorld 1 (mappings Cases.mapped_twice) [] []) /\
  trace (edit_for Cases.two_routes_env Cases.edited_5 Scenario.mirror Cases.mapped_twice).2
  = [Edited 60 "#news corrected"].
Proof. split; reflexivity. Qed.

(** The delete handler does the same, and a refused send of a new message
    leaves the handler as an exception before the second route is tried. *)
Example delete_failure_skips_sibling_route :
  _handle_deleted_message Cases.two_routes_env Cases.delete_5 Cases.mapped_twice
  = (Ok tt, mkWorld 1 (mappings Cases.mapped_twice) [] []) /\
  trace (delete_for Cases.two_routes_env Scenario.mirror 5 Cases.mapped_twice).2
  = [Deleted 60].
Proof. split; reflexivity. Qed.

Example send_failure_skips_sibling_route :
  let run := _handle_new_message Cases.first_route_refused_env Cases.long_news
                                 Scenario.empty_world in
  run.1 = Raise Forbidden /\ trace run.2 = [] /\ mappings run.2 = ∅ /\
  sent_messages
    (trace (forward_on_route Cases.first_route_refused_env Cases.long_news Scenario.mirror
              false (Some ["#news"]) Scenario.empty_world).2)
  = [mkDM 1001 40 "#news part one part two" None].
Proof. repeat split; reflexivity. Qed.

(** ** The recovery loop *)

Lemma sleep_run s w :
  sleep s w = (Ok tt, mkWorld (S (clock w)) (mappings w) (missed w) (trace w ++ [Slept s])).
Proof. reflexivity. Qed.

(** The [except Exception] clause accepts every exception of the model. *)
Lemma isinstance_Exception e : isinstance e CException = true.
Proof. destruct e; reflexivity. Qed.

(** The pass, by what its [try] block did. *)
Lemma recovery_pass_run E w :
  recovery_pass E w =
  let interval := healthcheck_interval (config E) in
  if internet_connected E (clock w) && telegram_is_healthy E (clock w) then
    match check_missed_messages E w with
    | (Ok _, w1) => sleep interval w1
    | (Raise e, w1) =>
        sleep interval
          (mkWorld (clock w1) (mappings w1) (missed w1)
                   (trace w1 ++ [Logged (LogFetchFailed e)]))
    end
  else sleep interval w.
Proof.
  unfold recovery_pass, bind at 1, now. simpl.
  destruct (internet_connected E (clock w) && telegram_is_healthy E (clock w)).
  - unfold bind, try_except.
    destruct (check_missed_messages E w) as [[[]|e] w1]; reflexivity.
  - reflexivity.
Qed.

Lemma recovery_pass_Ok E w :
  exists w', recovery_pass E w = (Ok tt, w') /\
             last (trace w') = Some (Slept (healthcheck_interval (config E))).
Proof.
  rewrite recovery_pass_run. simpl.
  destruct (internet_connected E (clock w) && telegram_is_healthy E (clock w)).
  - destruct (check_missed_messages E w) as [[[]|e] w1]; rewrite sleep_run;
      eexists; (split; [reflexivity | simpl; apply last_snoc]).
  - rewrite sleep_run. eexists. split; [reflexivity | simpl; apply last_snoc].
Qed.

(** A pass returns, and what it adds to the trace ends with the sleep of the
    health-check interval. *)
Lemma recovery_pass_segment E w :
  exists w' segment,
    recovery_pass E w = (Ok tt, w') /\
    trace w' = trace w ++ segment ++ [Slept (healthcheck_interval (config E))].
Proof.
  rewrite recovery_pass_run. cbv zeta.
  destruct (internet_connected E (clock w) && telegram_is_healthy E (clock w)).
  - destruct (check_missed_messages_grows E w) as [evs Hevs].
    destruct (check_missed_messages E w) as [[[]|e] w1]; rewrite sleep_run;
      simpl in Hevs |- *.
    + exists (mkWorld (S (clock w1)) (mappings w1) (missed w1)
                      (trace w1 ++ [Slept (healthcheck_interval (config E))])), evs.
      split; [reflexivity |]. simpl. now rewrite Hevs, <- app_assoc.
    + eexists _, (evs ++ [Logged (LogFetchFailed e)]).
      split; [reflexivity |]. simpl. now rewrite Hevs, <- !app_assoc.
  - rewrite sleep_run. eexists _, []. split; reflexivity.
Qed.

(** C9: a pass of the recovery loop never raises.  An exception of the fetch
    or of the replay is caught and logged; the pass then sleeps for the
    health-check interval, as it does after a pass that went well and after
    a pass skipped for unhealthiness; and the next pass runs: observed for
    any number of passes, the loop has returned from every one of them, the
    world is the one that this number of passes leaves, and the trace has
    grown by one segment per pass, each ended by the sleep of the
    health-check interval. *)
Theorem C9_recovery_loop_survives_errors E :
  (forall w, exists w',
     recovery_pass E w = (Ok tt, w') /\
     last (trace w') = Some (Slept (healthcheck_interval (config E)))) /\
  (forall w e w1,
     internet_connected E (clock w) && telegram_is_healthy E (clock w) = true ->
     check_missed_messages E w = (Raise e, w1) ->
     recovery_pass E w
     = (Ok tt, mkWorld (S (clock w1)) (mappings w1) (missed w1)
                       (trace w1 ++ [Logged (LogFetchFailed e)]
                                 ++ [Slept (healthcheck_interval (config E))]))) /\
  (forall passes w, exists w',
     on_restored_connectivity E (S passes) w = (Ok tt, w') /\
     last (trace w') = Some (Slept (healthcheck_interval (config E)))) /\
  (forall passes w, exists w' segments,
     on_restored_connectivity E passes w = (Ok tt, w') /\
     w' = Nat.iter passes (fun w0 => (recovery_pass E w0).2) w /\
     length segments = passes /\
     trace w' = trace w ++
       concat (map (fun segment =>
                      segment ++ [Slept (healthcheck_interval (config E))]) segments)).
Proof.
  split; [| split; [| split]].
  - apply recovery_pass_Ok.
  - intros w e w1 Hup Hcheck. rewrite recovery_pass_run. simpl.
    rewrite Hup, Hcheck, sleep_run. simpl. now rewrite <- app_assoc.
  - induction passes as [|n IH]; intros w.
    + destruct (recovery_pass_Ok E w) as (w' & Hrun & Hlast).
      exists w'. simpl. unfold bind. rewrite Hrun. auto.
    + destruct (recovery_pass_Ok E w) as (w1 & Hrun & _).
      destruct (IH w1) as (w' & Hn & Hlast).
      exists w'. split; [| exact Hlast].
      change (on_restored_connectivity E (S (S n)) w)
        with (bind (recovery_pass E) (fun _ => on_restored_connectivity E (S n)) w).
      unfold bind at 1. rewrite Hrun. exact Hn.
  - induction passes as [|n IH]; intros w.
    + exists w, []. simpl. rewrite app_nil_r. auto.
    + destruct (recovery_pass_segment E w) as (w1 & segment & Hrun & Htr1).
      destruct (IH w1) as (w' & segments & Hn & Hiter & Hlen & Htr).
      exists w', (segment :: segments).
      change (on_restored_connectivity E (S n) w)
        with (bind (recovery_pass E) (fun _ => on_restored_connectivity E n) w).
      unfold bind at 1. rewrite Hrun. split; [exact Hn |]. split; [| split].
      * rewrite Nat.iter_succ_r, Hrun. exact Hiter.
      * simpl. now rewrite Hlen.
      * rewrite Htr, Htr1. simpl. now rewrite <- !app_assoc.
Qed.

Lemma C9_recovery_loop_survives_errors_witness :
  recovery_pass Cases.fetch_failing_env Cases.mapped_100
  = (Ok tt, mkWorld 2 (mappings Cases.mapped_100) []
                    [Logged (LogFetchFailed (OtherError "flood wait")); Slept 60]) /\
  exists w' segments,
    on_restored_connectivity Cases.fetch_failing_env 3 Cases.mapped_100 = (Ok tt, w') /\
    w' = Nat.iter 3 (fun w0 => (recovery_pass Cases.fetch_failing_env w0).2)
                  Cases.mapped_100 /\
    length segments = 3%nat /\
    trace w' = trace Cases.mapped_100 ++
      concat (map (fun segment => segment ++ [Slept 60]) segments).
Proof.
  destruct (C9_recovery_loop_survives_errors Cases.fetch_failing_env)
    as (_ & Hcaught & _ & Hpasses).
  split.
  - apply (Hcaught Cases.mapped_100 (OtherError "flood wait")
             (mkWorld 1 (mappings Cases.mapped_100) [] [])).
    + reflexivity.
    + reflexivity.
  - apply (Hpasses 3%nat Cases.mapped_100).
Defined.

(** ** Replay *)

#[global] Instance same_forwarded_frame : Frame same_forwarded.
Proof.
  split; unfold same_forwarded.
  - reflexivity.
  - intros a b c H1 H2. congruence.
Qed.

#[global] Instance same_forwarded_unobservant : Unobservant same_forwarded.
Proof. intros w w' (_ & _ & _ & H). exact H. Qed.

(** The new-message handler is not the one that logs a hand-over. *)
Lemma handle_new_message_same_forwarded E msg w :
  forwarded_ids (trace (_handle_new_message E msg w).2) = forwarded_ids (trace w).
Proof.
  refine (respects_handle_new_message E same_forwarded msg
            (get_matching_forwarders E (peer_channel_id msg)) _ _ _ _ w).
  - intros m w0. unfold same_forwarded. simpl.
    rewrite forwarded_ids_app. simpl. apply app_nil_r.
  - intros name tg ch ex w0. reflexivity.
  - intros f d _ w0. reflexivity.
  - intros x Hx. exact Hx.
Qed.

(** The turn of one fetched message, by what the collaborators answer. *)
Lemma replay_message_run E c m w :
  replay_message E c m w =
  let recovered := trace w ++ [Logged (LogRecovered (tg_id m))] in
  match get_input_entity_outcome E (clock w) c with
  | Some e => (Raise e, mkWorld (S (clock w)) (mappings w) (missed w) recovered)
  | None =>
      if discord_is_healthy E (S (clock w)) then
        _handle_new_message E m
          (mkWorld (S (S (clock w))) (mappings w) (missed w)
                   (recovered ++ [Slept (recoverer_delay (config E));
                                  Logged (LogForwarding (tg_id m))]))
      else
        (Ok tt, mkWorld (S (clock w)) (mappings w) (missed w)
                        (recovered ++ [Logged (LogQueued (tg_id m))]))
  end.
Proof.
  unfold replay_message, bind at 1, emit. simpl.
  unfold bind at 1, tick. simpl. unfold bind at 1.
  destruct (get_input_entity_outcome E (clock w) c) as [e|]; simpl; [reflexivity |].
  unfold bind at 1, now. simpl.
  destruct (discord_is_healthy E (S (clock w))); simpl; [| reflexivity].
  unfold bind at 1. rewrite sleep_run. simpl. unfold bind at 1, emit. simpl.
  now rewrite <- app_assoc.
Qed.

Lemma replay_message_forwarded E c m w :
  forwarded_ids (trace (replay_message E c m w).2)
  = forwarded_ids (trace w) ++ (if handed_over E c w then [tg_id m] else []).
Proof.
  rewrite replay_message_run. unfold handed_over. simpl.
  destruct (get_input_entity_outcome E (clock w) c) as [e|]; simpl.
  - rewrite forwarded_ids_app. reflexivity.
  - destruct (discord_is_healthy E (S (clock w))).
    + rewrite handle_new_message_same_forwarded. simpl.
      rewrite !forwarded_ids_app. simpl. now rewrite app_nil_r.
    + simpl. rewrite !forwarded_ids_app. simpl. now rewrite !app_nil_r.
Qed.

Lemma replay_message_Ok_handed E c m w w' :
  replay_message E c m w = (Ok tt, w') ->
  (forall t, discord_is_healthy E t = true) ->
  handed_over E c w = true.
Proof.
  rewrite replay_message_run. unfold handed_over. simpl.
  destruct (get_input_entity_outcome E (clock w) c); [discriminate |].
  intros _ Hh. apply Hh.
Qed.

(** The messages handed to the handler are fetched messages, in the order the
    fetch answered them; they are all of them when the destination is healthy
    throughout and the replay returns. *)
Lemma replay_messages_forwarded E c msgs : forall w r w',
  replay_messages E c msgs w = (r, w') ->
  exists ids,
    forwarded_ids (trace w') = forwarded_ids (trace w) ++ ids /\
    sublist ids (map tg_id msgs) /\
    ((forall t, discord_is_healthy E t = true) -> r = Ok tt -> ids = map tg_id msgs).
Proof.
  induction msgs as [|m rest IH]; intros w r w' H; simpl in H.
  - inversion H; subst. exists []. rewrite app_nil_r. repeat split. constructor.
  - unfold bind in H. pose proof (replay_message_forwarded E c m w) as Hone.
    destruct (replay_message E c m w) as [[[]|e] w1] eqn:Hm; simpl in Hone.
    + apply IH in H as (ids & Hids & Hsub & Hall).
      exists ((if handed_over E c w then [tg_id m] else []) ++ ids).
      rewrite Hids, Hone, <- app_assoc. split; [reflexivity |]. split.
      * destruct (handed_over E c w); simpl.
        -- now apply sublist_skip.
        -- now apply sublist_cons.
      * intros Hh Hr. rewrite (replay_message_Ok_handed E c m w w1 Hm Hh). simpl.
        f_equal. now apply Hall.
    + inversion H; subst.
      exists (if handed_over E c w then [tg_id m] else []).
      split; [exact Hone |]. split; [| discriminate].
      destruct (handed_over E c w).
      * apply sublist_skip, sublist_nil_l.
      * apply sublist_nil_l.
Qed.











Example out_of_order_pass :
  let w' := (recovery_pass Cases.out_of_order_env Cases.mapped_100).2 in
  forwarded_ids (trace w') = [101; 103; 102] /\
  map dm_id (sent_messages (trace w')) = [1004; 1008; 1012] /\
  mappings w' !! ("news", 103) = Some 1008 /\
  mappings w' !! ("news", 102) = Some 1012.
Proof. repeat split; reflexivity. Qed.



(** ** Destination health during a replay *)

(** While the destination is unhealthy, the turns of the fetched messages
    change nothing that the next pass reads. *)
Lemma replay_messages_unhealthy E c msgs : forall w,
  (forall t, (clock w < t)%nat -> discord_is_healthy E t = false) ->
  silent w (replay_messages E c msgs w).2.
Proof.
  induction msgs as [|m rest IH]; intros w Hun; simpl.
  - apply frame_refl.
  - unfold bind. rewrite replay_message_run. simpl.
    destruct (get_input_entity_outcome E (clock w) c) as [e|]; simpl.
    + unfold silent. simpl. rewrite sent_messages_app, forwarded_ids_app. simpl.
      rewrite !app_nil_r. repeat split.
    + rewrite (Hun (S (clock w))) by lia.
      set (w1 := mkWorld _ _ _ _).
      eapply frame_trans; [| apply IH].
      * unfold silent. subst w1. simpl.
        rewrite !sent_messages_app, !forwarded_ids_app. simpl.
        rewrite !app_nil_r. repeat split.
      * intros t Ht. apply Hun. subst w1. simpl in Ht. lia.
Qed.

(** The destination is unhealthy at the turn of 101 and healthy again at the
    turn of 102, which is delivered in the same pass. *)
Example later_message_delivered_in_same_pass :
  let w' := (replay_messages Cases.flapping_env (ById 1)
               [Cases.tagged_news 101; Cases.tagged_news 102] Cases.fetched_100).2 in
  forwarded_ids (trace w') = [102] /\
  map dm_id (sent_messages (trace w')) = [1005].
Proof. split; reflexivity. Qed.

(** The turn of a fetched message, by what the health flag says: skipped
    with two log lines and nothing else, or handed to the handler. *)
Lemma health_is_read_per_message E c m w :
  get_input_entity_outcome E (clock w) c = None ->
  replay_message E c m w
  = if discord_is_healthy E (S (clock w)) then
      _handle_new_message E m
        (mkWorld (S (S (clock w))) (mappings w) (missed w)
                 (trace w ++ [Logged (LogRecovered (tg_id m));
                              Slept (recoverer_delay (config E));
                              Logged (LogForwarding (tg_id m))]))
    else
      (Ok tt, mkWorld (S (clock w)) (mappings w) (missed w)
                      (trace w ++ [Logged (LogRecovered (tg_id m));
                                   Logged (LogQueued (tg_id m))])).
Proof.
  intros Hent. rewrite replay_message_run. cbv zeta. rewrite Hent.
  destruct (discord_is_healthy E (S (clock w))); now rewrite <- app_assoc.
Qed.

Lemma on_restored_connectivity_S E n w :
  on_restored_connectivity E (S n) w
  = bind (recovery_pass E) (fun _ => on_restored_connectivity E n) w.
Proof. reflexivity. Qed.

Lemma flapping_first_pass :
  recovery_pass Cases.flapping_env Cases.mapped_100 = (Ok tt, Cases.after_first_pass).
Proof. vm_compute. reflexivity. Qed.

(** Once 102 is mapped, a pass of the scenario asks for the messages after
    102, gets none, and sleeps. *)
Lemma flapping_later_pass c missed_records tr :
  recovery_pass Cases.flapping_env (mkWorld c Cases.store_102 missed_records tr)
  = (Ok tt, mkWorld (S (S c)) Cases.store_102 missed_records (tr ++ [Slept 60])).
Proof. vm_compute. reflexivity. Qed.

Lemma flapping_later_passes passes : forall c missed_records tr,
  exists c',
    on_restored_connectivity Cases.flapping_env passes
      (mkWorld c Cases.store_102 missed_records tr)
    = (Ok tt, mkWorld c' Cases.store_102 missed_records
                      (tr ++ repeat (Slept 60) passes)).
Proof.
  induction passes as [|n IH]; intros c missed_records tr.
  - exists c. simpl. now rewrite app_nil_r.
  - rewrite on_restored_connectivity_S. unfold bind. rewrite flapping_later_pass.
    destruct (IH (S (S c)) missed_records (tr ++ [Slept 60])) as [c' Hn].
    exists c'. rewrite Hn. simpl. now rewrite <- app_assoc.
Qed.

Lemma sent_messages_sleeps n : sent_messages (repeat (Slept 60) n) = [].
Proof. induction n as [|n IH]; [reflexivity | exact IH]. Qed.

Lemma forwarded_ids_sleeps n : forwarded_ids (repeat (Slept 60) n) = [].
Proof. induction n as [|n IH]; [reflexivity | exact IH]. Qed.

(** C8 on the code: a message whose turn finds the destination unhealthy is
    skipped with the log line that announces its queuing and is recorded
    nowhere: no queue, no missed-forward record, no mapping.  With the
    messages 101 and 102 after the last mapping and the destination
    unhealthy at the turn of 101 only, the first pass skips 101 and delivers
    102; from then on the last mapping is 102, and however many passes
    follow, with the destination healthy at every moment of them, 101 is
    never handed to the handler, never sent and never mapped. *)
Theorem C8_skipped_message_is_never_replayed :
  (forall E c m w,
     get_input_entity_outcome E (clock w) c = None ->
     discord_is_healthy E (S (clock w)) = false ->
     replay_message E c m w
     = (Ok tt, mkWorld (S (clock w)) (mappings w) (missed w)
                       (trace w ++ [Logged (LogRecovered (tg_id m));
                                    Logged (LogQueued (tg_id m))]))) /\
  (forall t, (2 < t)%nat -> discord_is_healthy Cases.flapping_env t = true) /\
  (forall passes,
     let w' := (on_restored_connectivity Cases.flapping_env (S passes)
                                         Cases.mapped_100).2 in
     In (Logged (LogQueued 101)) (trace w') /\
     forwarded_ids (trace w') = [102] /\
     map dm_id (sent_messages (trace w')) = [1005] /\
     mappings w' !! ("news", 102) = Some 1005 /\
     mappings w' !! ("news", 101) = None /\
     missed w' = []).
Proof.
  split; [| split].
  - intros E c m w Hent Hh. rewrite health_is_read_per_message by exact Hent.
    now rewrite Hh.
  - intros t Ht. destruct t as [|[|[|t]]]; try lia. reflexivity.
  - intros passes w'. subst w'.
    rewrite on_restored_connectivity_S. unfold bind. rewrite flapping_first_pass.
    unfold Cases.after_first_pass.
    destruct (flapping_later_passes passes 7%nat []
                (trace Cases.after_first_pass)) as [c' Hn].
    unfold Cases.after_first_pass in Hn. cbn [trace] in Hn. rewrite Hn.
    cbn [snd trace mappings missed].
    rewrite sent_messages_app, forwarded_ids_app, sent_messages_sleeps,
      forwarded_ids_sleeps, !app_nil_r.
    split; [apply in_or_app; left; simpl; tauto |].
    repeat split; reflexivity.
Qed.

Lemma C8_skipped_message_is_never_replayed_witness :
  replay_message Cases.flapping_env (ById 1) (Cases.tagged_news 101) Cases.fetched_100
  = (Ok tt, mkWorld 2 (mappings Cases.mapped_100) []
                    [Logged (LogRecovered 101); Logged (LogQueued 101)]) /\
  let w' := (on_restored_connectivity Cases.flapping_env 4 Cases.mapped_100).2 in
  forwarded_ids (trace w') = [102] /\ mappings w' !! ("news", 101) = None.
Proof.
  destruct C8_skipped_message_is_never_replayed as (Hskip & _ & Hpasses).
  split.
  - apply (Hskip Cases.flapping_env (ById 1) (Cases.tagged_news 101) Cases.fetched_100).
    + reflexivity.
    + reflexivity.
  - destruct (Hpasses 3%nat) as (_ & Hf & _ & _ & Hm & _). split; [exact Hf | exact Hm].
Defined.

(** * Further properties of the engine *)

(** ** The routing policy in closed form *)

Lemma matching_tags_any E tags hashtags :
  (0 <? length (matching_tags E tags hashtags))%nat = any_tag_in E tags hashtags.
Proof.
  unfold matching_tags, any_tag_in.
  induction tags as [|tag rest IH]; [reflexivity |].
  simpl. destruct (py_in (str_lower E (tag_name tag)) hashtags); [reflexivity | exact IH].
Qed.

Lemma any_tag_in_no_hashtag E tags : any_tag_in E tags [] = false.
Proof. unfold any_tag_in. induction tags as [|tag rest IH]; [reflexivity | exact IH]. Qed.

(** The guard of the allow step changes nothing: with no hashtag or no allow
    tag, no tag matches anyway. *)
Lemma guarded_matching_tags_any E tags hashtags :
  (0 <? length (if truthy_list hashtags && truthy_list tags
                then matching_tags E tags hashtags else []))%nat
  = any_tag_in E tags hashtags.
Proof.
  destruct hashtags as [|h hs].
  - simpl. now rewrite any_tag_in_no_hashtag.
  - destruct tags as [|tag rest]; [reflexivity |].
    cbn [truthy_list andb]. apply matching_tags_any.
Qed.

(** X1: a route forwards an event exactly when it forwards everything or an
    allow tag, lower-cased by [str.lower], is among the hashtags, and no deny
    tag is.  Nothing is assumed of [str.lower]. *)
Theorem X1_should_forward_closed_form E f msg hashtags :
  should_forward (routing_decision E f msg hashtags)
  = (forward_everything f
     || any_tag_in E (forward_hashtags f) (get_message_forward_hashtags E msg))
    && negb (any_tag_in E (excluded_hashtags f) (get_message_forward_hashtags E msg)).
Proof.
  unfold routing_decision.
  rewrite guarded_matching_tags_any, matching_tags_any.
  set (allow := any_tag_in E (forward_hashtags f) _).
  destruct (excluded_hashtags f) as [|t ts].
  - cbn [truthy_list any_tag_in existsb negb]. rewrite andb_true_r.
    destruct (forward_everything f), (truthy_dict (mention_override f)), allow;
      reflexivity.
  - cbn [truthy_list].
    destruct (forward_everything f), (truthy_dict (mention_override f)), allow,
      (any_tag_in E (t :: ts) (get_message_forward_hashtags E msg)); reflexivity.
Qed.

(** X2: when the route consults its allow-list and a tag of it matches, the
    mention-everyone flag of the decision is the disjunction of the override
    flags of the matching tags, whatever the route's own flag; in every other
    case it is the route's own flag. *)
Theorem X2_mention_everyone_decision E f msg hashtags :
  decided_mention_everyone (routing_decision E f msg hashtags)
  = if (negb (forward_everything f) || truthy_dict (mention_override f))
       && any_tag_in E (forward_hashtags f) (get_message_forward_hashtags E msg)
    then existsb override_mention_everyone
           (matching_tags E (forward_hashtags f) (get_message_forward_hashtags E msg))
    else mention_everyone f.
Proof.
  unfold routing_decision.
  rewrite guarded_matching_tags_any.
  set (H := get_message_forward_hashtags E msg).
  destruct (negb (forward_everything f) || truthy_dict (mention_override f)) eqn:Hc;
    cbn [andb].
  - destruct (any_tag_in E (forward_hashtags f) H) eqn:Ha.
    + assert (Hguard : truthy_list H && truthy_list (forward_hashtags f) = true).
      { destruct H as [|h hs]; [now rewrite any_tag_in_no_hashtag in Ha |].
        destruct (forward_hashtags f); [discriminate Ha | reflexivity]. }
      rewrite Hguard.
      destruct (truthy_list (excluded_hashtags f)); [| reflexivity].
      destruct (0 <? _)%nat; reflexivity.
    + destruct (truthy_list (excluded_hashtags f)); [| reflexivity].
      destruct (0 <? _)%nat; reflexivity.
  - destruct (truthy_list (excluded_hashtags f)); [| reflexivity].
    destruct (0 <? _)%nat; reflexivity.
Qed.

(** X3: after the decision of a route, the local [message_forward_hashtags]
    holds the hashtags of the message when the route consults them, and is
    left as the routes before it left it otherwise. *)
Theorem X3_hashtags_local_after_decision E f msg hashtags :
  hashtags_local (routing_decision E f msg hashtags)
  = if consults_hashtags f then Some (get_message_forward_hashtags E msg) else hashtags.
Proof.
  unfold routing_decision, consults_hashtags.
  destruct (negb (forward_everything f) || truthy_dict (mention_override f)); simpl.
  - destruct (0 <? _)%nat; destruct (truthy_list (excluded_hashtags f));
      try reflexivity; destruct (0 <? _)%nat; reflexivity.
  - destruct (truthy_list (excluded_hashtags f)); [| reflexivity].
    destruct (0 <? _)%nat; reflexivity.
Qed.

(** ** Mention roles *)

Lemma elem_of_add_roles E server_roles builtin names : forall (acc : gset string) m,
  m ∈ add_roles E server_roles builtin names acc <->
  m ∈ acc \/ exists name, In name names /\ mention_of E server_roles builtin name = Some m.
Proof.
  unfold add_roles.
  induction names as [|name rest IH]; intros acc m; simpl.
  - split; [auto | intros [H|(n & [] & _)]; exact H].
  - rewrite IH. unfold mention_of at 2.
    destruct (is_builtin_mention E name builtin) eqn:Hb.
    + rewrite elem_of_union, elem_of_singleton. split.
      * intros [[->|H]|(n & Hn & Hm)]; eauto.
        right. exists name. split; [now left |]. unfold mention_of. now rewrite Hb.
      * intros [H|(n & [<-|Hn] & Hm)]; eauto.
        unfold mention_of in Hm. rewrite Hb in Hm. injection Hm as <-. auto.
    + destruct (find _ server_roles) as [role|] eqn:Hf.
      * rewrite elem_of_union, elem_of_singleton. split.
        -- intros [[->|H]|(n & Hn & Hm)]; eauto.
           right. exists name. split; [now left |]. unfold mention_of.
           now rewrite Hb, Hf.
        -- intros [H|(n & [<-|Hn] & Hm)]; eauto.
           unfold mention_of in Hm. rewrite Hb, Hf in Hm. injection Hm as <-. auto.
      * split.
        -- intros [H|(n & Hn & Hm)]; eauto.
        -- intros [H|(n & [<-|Hn] & Hm)]; eauto.
           unfold mention_of in Hm. rewrite Hb, Hf in Hm. discriminate Hm.
Qed.

Lemma elem_of_mention_fold E server_roles builtin (overrides : gmap string (list string))
    tags : forall (acc : gset string) m,
  m ∈ fold_left
        (fun acc tag =>
           match overrides !! str_lower E tag with
           | Some names => add_roles E server_roles builtin names acc
           | None => acc
           end) tags acc <->
  m ∈ acc \/
  exists tag names name,
    In tag tags /\ overrides !! str_lower E tag = Some names /\ In name names /\
    mention_of E server_roles builtin name = Some m.
Proof.
  induction tags as [|tag rest IH]; intros acc m; simpl.
  - split; [auto | intros [H|(t & _ & _ & [] & _)]; exact H].
  - rewrite IH. destruct (overrides !! str_lower E tag) as [names|] eqn:Hov.
    + rewrite elem_of_add_roles. split.
      * intros [[H|(n & Hn & Hm)]|(t & ns & n & Ht & Ho & Hn & Hm)]; eauto 10.
      * intros [H|(t & ns & n & [<-|Ht] & Ho & Hn & Hm)]; eauto 10.
        rewrite Hov in Ho. injection Ho as <-. eauto.
    + split.
      * intros [H|(t & ns & n & Ht & Ho & Hn & Hm)]; eauto 10.
      * intros [H|(t & ns & n & [<-|Ht] & Ho & Hn & Hm)]; eauto 10.
        rewrite Hov in Ho. discriminate Ho.
Qed.

(** X4: a mention is returned exactly when a hashtag of the message,
    lower-cased by [str.lower], is a key of the override mapping and one of
    the role names under it resolves to that mention, as a built-in token or
    as a server role of that exact name; names that resolve to nothing
    contribute nothing.  Nothing is assumed of [str.lower]. *)
Theorem X4_mention_roles_membership E hashtags overrides builtin server_roles m :
  In m (get_mention_roles E hashtags overrides builtin server_roles) <->
  exists tag names name,
    In tag hashtags /\ overrides !! str_lower E tag = Some names /\ In name names /\
    mention_of E server_roles builtin name = Some m.
Proof.
  unfold get_mention_roles.
  rewrite <- list_elem_of_In, elem_of_elements, elem_of_mention_fold.
  split; [intros [H|H]; [set_solver | exact H] | auto].
Qed.

(** X5: no mention is returned twice, however many hashtags and role names
    lead to it. *)
Theorem X5_mention_roles_no_duplicate E hashtags overrides builtin server_roles :
  NoDup (get_mention_roles E hashtags overrides builtin server_roles).
Proof. unfold get_mention_roles. apply NoDup_elements. Qed.

Lemma mention_fold_ext (g h : gset string -> string -> gset string) tags :
  (forall acc tag, In tag tags -> g acc tag = h acc tag) ->
  forall acc, fold_left g tags acc = fold_left h tags acc.
Proof.
  induction tags as [|tag rest IH]; intros Hext acc; [reflexivity |].
  simpl. rewrite Hext by now left. apply IH. intros a t Ht. apply Hext. now right.
Qed.

(** X6: the hashtags are lower-cased before they are looked up and the keys
    of the override mapping are not, so an override under a key that
    [str.lower] never answers is never applied, whatever the hashtags of the
    message: the result is the same without it. *)
Theorem X6_override_key_not_lower_case_is_dead E overrides key builtin server_roles :
  (forall s, str_lower E s <> key) ->
  forall hashtags,
    get_mention_roles E hashtags (delete key overrides) builtin server_roles
    = get_mention_roles E hashtags overrides builtin server_roles.
Proof.
  intros Hkey hashtags. unfold get_mention_roles. f_equal.
  apply mention_fold_ext. intros acc tag _.
  rewrite lookup_delete_ne; [reflexivity |].
  intros Heq. now apply (Hkey tag).
Qed.

Lemma X6_override_key_not_lower_case_is_dead_witness :
  get_mention_roles Cases.news_env ["#News"] (delete "#News" {["#News" := ["Editors"]]})
                    ["everyone"] [mkRole "Editors" "<@&7>"]
  = get_mention_roles Cases.news_env ["#News"] {["#News" := ["Editors"]]} ["everyone"]
                      [mkRole "Editors" "<@&7>"].
Proof.
  refine (X6_override_key_not_lower_case_is_dead Cases.news_env {["#News" := ["Editors"]]}
            "#News" ["everyone"] [mkRole "Editors" "<@&7>"] _ ["#News"]).
  intros [|c1 [|c2 s]]; simpl; try discriminate.
  intros H. injection H as _ H _.
  destruct c2 as [[] [] [] [] [] [] [] []]; discriminate H.
Defined.

Example mention_roles_resolved :
  get_mention_roles Cases.news_env ["#News"; "#news"]
                    {["#news" := ["Everyone"; "Editors"; "Ghosts"]]}
                    ["everyone"; "here"] [mkRole "Editors" "<@&7>"]
  ≡ₚ ["@Everyone"; "<@&7>"].
Proof. vm_compute. apply (Permutation_refl _) || apply Permutation_swap. Qed.

(** ** More on delivery *)

(** What [forward_to_discord] has done when it returns. *)
Lemma forward_to_discord_Ok E ch text image_file reference w sent w' :
  forward_to_discord E ch text image_file reference w = (Ok sent, w') ->
  map dm_content sent = split_message E text /\
  Forall (fun m => dm_reference m = reference /\ dm_channel m = ch) sent /\
  trace w' = trace w ++ map Sent sent /\
  mappings w' = mappings w /\ missed w' = missed w.
Proof.
  unfold forward_to_discord.
  assert (Hplain : send_parts E ch reference (split_message E text) [] w = (Ok sent, w') ->
                   map dm_content sent = split_message E text /\
                   Forall (fun m => dm_reference m = reference /\ dm_channel m = ch) sent /\
                   trace w' = trace w ++ map Sent sent /\
                   mappings w' = mappings w /\ missed w' = missed w).
  { intros H. apply send_parts_run in H as (s & Htr & Hmap & Hmis & Hall & Hcont & -> & Hlen).
    simpl. rewrite Hcont, Hlen, firstn_all. auto. }
  destruct image_file as [file|]; [| exact Hplain].
  destruct (truthy_str file); [| exact Hplain].
  destruct (split_message E text) as [|first rest]; [discriminate |].
  unfold bind. rewrite channel_send_run.
  destruct (send_outcome E (clock w) ch first (Some file) reference) as [e|id];
    [discriminate |].
  simpl. intros H.
  apply send_parts_run in H as (s & Htr & Hmap & Hmis & Hall & Hcont & -> & Hlen).
  simpl in *. rewrite Hcont, Hlen, firstn_all, Htr, <- app_assoc. repeat split; auto.
Qed.

(** X7: when [forward_to_discord] returns, with or without an image, it has
    sent one message per part of the split text, in the order of the parts,
    all to the given channel and all with the given reference, and the
    messages it answers are the ones it sent. *)
Theorem X7_one_message_per_part E ch text image_file reference w sent w' :
  forward_to_discord E ch text image_file reference w = (Ok sent, w') ->
  map dm_content sent = split_message E text /\
  Forall (fun m => dm_reference m = reference /\ dm_channel m = ch) sent /\
  trace w' = trace w ++ map Sent sent /\
  mappings w' = mappings w /\ missed w' = missed w.
Proof. apply forward_to_discord_Ok. Qed.

Lemma X7_one_message_per_part_witness :
  map dm_content [mkDM 1000 10 "part one" (Some 30); mkDM 1001 10 "part two" (Some 30)]
  = split_message Cases.two_parts_env "#news" /\
  Forall (fun m => dm_reference m = Some 30 /\ dm_channel m = 10)
         [mkDM 1000 10 "part one" (Some 30); mkDM 1001 10 "part two" (Some 30)] /\
  trace (Runs.with_image_run).2
  = trace Scenario.empty_world
    ++ map Sent [mkDM 1000 10 "part one" (Some 30); mkDM 1001 10 "part two" (Some 30)] /\
  mappings (Runs.with_image_run).2 = mappings Scenario.empty_world /\
  missed (Runs.with_image_run).2 = missed Scenario.empty_world.
Proof.
  apply (X7_one_message_per_part Cases.two_parts_env 10 "#news" (Some "photo.png")
           (Some 30) Scenario.empty_world).
  reflexivity.
Defined.

(** X8: on the text path, when the delivery step returns, a missed-forward
    record is what it has written exactly when the text split into no part:
    nothing was sent then and the mapping store is as it was; with at least
    one part a mapping is written and no missed-forward record. *)
Theorem X8_missed_record_for_empty_split E msg f ch text reference w w' :
  tg_media msg = false ->
  deliver_and_record E msg f ch text reference w = (Ok tt, w') ->
  match split_message E text with
  | [] =>
      w' = mkWorld (clock w) (mappings w)
                   (missed w ++ [mkMissed (forwarder_name f) (tg_id msg)
                                          (discord_channel_id f) None])
                   (trace w)
  | _ :: _ =>
      missed w' = missed w /\
      is_Some (mappings w' !! (forwarder_name f, tg_id msg))
  end.
Proof.
  intros Hmedia H. unfold deliver_and_record, deliver in H. rewrite Hmedia in H.
  apply bind_inv_Ok in H as (sent & w1 & Hsend & Hrec).
  destruct (split_message E text) as [|part rest] eqn:Hsplit.
  - unfold forward_to_discord in Hsend. rewrite Hsplit in Hsend. simpl in Hsend.
    inversion Hsend; subst. simpl in Hrec. now inversion Hrec.
  - apply forward_to_discord_Ok in Hsend as (Hcont & _ & _ & Hmap & Hmis).
    destruct sent as [|main more]; [rewrite Hsplit in Hcont; discriminate Hcont |].
    simpl in Hrec. inversion Hrec; subst. simpl. split; [exact Hmis |].
    rewrite lookup_insert_eq. eauto.
Qed.

Lemma X8_missed_record_for_empty_split_witness :
  (Runs.no_part_run).2
  = mkWorld 0 ∅ [mkMissed "news" 7 10 None] [].
Proof.
  apply (X8_missed_record_for_empty_split Runs.no_part_env Cases.long_news Scenario.news
           10 "" None Scenario.empty_world (Runs.no_part_run).2).
  - reflexivity.
  - reflexivity.
Defined.

(** For a text that splits into no part, [forward_to_discord] passes no
    suspension point and sends nothing: it answers the empty list, unless it
    was given an image, in which case reading the first part raises
    [IndexError]. *)
Lemma forward_to_discord_empty_split E ch text image_file reference w :
  split_message E text = [] ->
  forward_to_discord E ch text image_file reference w
  = (match image_file with
     | Some file => if truthy_str file then Raise IndexError else Ok []
     | None => Ok []
     end, w).
Proof.
  intros Hsplit. unfold forward_to_discord. rewrite Hsplit.
  destruct image_file as [file|]; [| reflexivity].
  destruct (truthy_str file); reflexivity.
Qed.

(** ** More on reply references *)

(** X9: only a not-found failure of the history request is caught in
    [fetch_discord_reference].  When its lookup answers a destination id and
    the history request fails in another way, the failure leaves the function
    as an exception, with nothing sent or recorded. *)
Theorem X9_history_failure_propagates E msg ch d e w :
  utils_get_discord_message_id E w (reply_to_msg_id msg) = Some d -> d <> 0 ->
  history_outcome E (clock w) ch d = inl e ->
  isinstance e CNotFound = false ->
  fetch_discord_reference E msg ch w
  = (Raise e, mkWorld (S (clock w)) (mappings w) (missed w) (trace w)).
Proof.
  intros Hmap Hd Hhist He.
  rewrite fetch_discord_reference_run. simpl. rewrite Hmap.
  apply Z.eqb_neq in Hd. rewrite Hd, Hhist.
  destruct e; try reflexivity. discriminate He.
Qed.

Lemma X9_history_failure_propagates_witness :
  fetch_discord_reference Runs.history_forbidden_env Cases.reply_to_3 10 Cases.mapped_3
  = (Raise Forbidden, mkWorld 1 (mappings Cases.mapped_3) [] []).
Proof.
  apply (X9_history_failure_propagates Runs.history_forbidden_env Cases.reply_to_3 10 30
           Forbidden Cases.mapped_3).
  - reflexivity.
  - discriminate.
  - reflexivity.
  - reflexivity.
Defined.

(** X10: resolving a reply reference reads and never writes: the mapping
    store, the missed-forward records and the trace are as they were, and at
    most one suspension point, the history request, has been passed. *)
Theorem X10_reference_resolution_reads_only E msg ch w :
  let w' := (fetch_discord_reference E msg ch w).2 in
  mappings w' = mappings w /\ missed w' = missed w /\ trace w' = trace w /\
  (clock w' = clock w \/ clock w' = S (clock w)).
Proof.
  rewrite fetch_discord_reference_run. simpl.
  destruct (utils_get_discord_message_id E w (reply_to_msg_id msg)) as [d|]; simpl;
    [| auto].
  destruct (Z.eqb d 0); simpl; [auto |].
  destruct (history_outcome E (clock w) ch d) as [e|l]; simpl; [| auto].
  destruct e; simpl; auto.
Qed.

(** ** More on the edit and delete handlers *)

Lemma message_edit_run E m content w :
  message_edit E m content w =
  match edit_outcome E (clock w) (dm_id m) content with
  | None => (Ok tt, mkWorld (S (clock w)) (mappings w) (missed w)
                            (trace w ++ [Edited (dm_id m) content]))
  | Some e => (Raise e, mkWorld (S (clock w)) (mappings w) (missed w) (trace w))
  end.
Proof.
  unfold message_edit, bind, tick, lift_opt_exn. simpl.
  destruct (edit_outcome E (clock w) (dm_id m) content); reflexivity.
Qed.

Lemma message_delete_run E m w :
  message_delete E m w =
  match delete_outcome E (clock w) (dm_id m) with
  | None => (Ok tt, mkWorld (S (clock w)) (mappings w) (missed w)
                            (trace w ++ [Deleted (dm_id m)]))
  | Some e => (Raise e, mkWorld (S (clock w)) (mappings w) (missed w) (trace w))
  end.
Proof.
  unfold message_delete, bind, tick, lift_opt_exn. simpl.
  destruct (delete_outcome E (clock w) (dm_id m)); reflexivity.
Qed.

Lemma except_discord_errors_HTTP {A} (h : M A) e :
  isinstance e CHTTPException = true -> except_discord_errors h e = Some h.
Proof. destruct e; try discriminate; reflexivity. Qed.

(** The turn of one route in the edit handler, by what the destination
    answers. *)
Lemma edit_for_run E msg f w :
  edit_for E msg f w =
  let w1 := mkWorld (S (clock w)) (mappings w) (missed w) (trace w) in
  match mappings w !! (forwarder_name f, tg_id msg),
        get_channel E (discord_channel_id f) with
  | Some id, Some discord_channel =>
      match fetch_message_outcome E (clock w) (ch_id discord_channel) id with
      | inl e =>
          match except_discord_errors (ret Return) e with
          | Some h => h w1
          | None => (Raise e, w1)
          end
      | inr None => (Ok Next, w1)
      | inr (Some m) =>
          match message_edit E m (tg_text msg) w1 with
          | (Ok _, w2) => (Ok Next, w2)
          | (Raise e, w2) =>
              match except_discord_errors (ret Return) e with
              | Some h => h w2
              | None => (Raise e, w2)
              end
          end
      end
  | _, _ => (Ok Next, w)
  end.
Proof.
  unfold edit_for, bind at 1, History.get_discord_message_id.
  destruct (mappings w !! (forwarder_name f, tg_id msg)) as [id|]; [| reflexivity].
  destruct (get_channel E (discord_channel_id f)) as [c|]; [| reflexivity].
  unfold try_except, bind at 1. rewrite fetch_message_run. simpl.
  destruct (fetch_message_outcome E (clock w) (ch_id c) id) as [e|[m|]];
    [reflexivity | | reflexivity].
  unfold bind.
  destruct (message_edit E m (tg_text msg) _) as [[[]|e] w2]; reflexivity.
Qed.

Lemma edit_for_returns E msg f w :
  discord_errors_only E -> exists c w', edit_for E msg f w = (Ok c, w').
Proof.
  intros (Hfetch & Hedit & _). rewrite edit_for_run. simpl.
  destruct (mappings w !! (forwarder_name f, tg_id msg)) as [id|]; [| eauto].
  destruct (get_channel E (discord_channel_id f)) as [c|]; [| eauto].
  destruct (fetch_message_outcome E (clock w) (ch_id c) id) as [e|[m|]] eqn:Hf.
  - rewrite (except_discord_errors_HTTP _ e (Hfetch _ _ _ _ Hf)). eauto.
  - rewrite message_edit_run. simpl.
    destruct (edit_outcome E (S (clock w)) (dm_id m) (tg_text msg)) as [e|] eqn:He.
    + rewrite (except_discord_errors_HTTP _ e (Hedit _ _ _ _ He)). eauto.
    + eauto.
  - eauto.
Qed.

Lemma for_each_returns {A} (body : A -> M Flow) l :
  (forall x w, exists c w', body x w = (Ok c, w')) ->
  forall w, exists c w', for_each body l w = (Ok c, w').
Proof.
  intros Hbody. induction l as [|x rest IH]; intros w; simpl.
  - eauto.
  - unfold bind. destruct (Hbody x w) as (c & w1 & ->).
    destruct c; [apply IH | eauto].
Qed.

(** X11: when the destination fails with discord's own errors only
    (not-found, forbidden, other HTTP failures), the edit handler never
    raises: whatever the event and the store, it returns. *)
Theorem X11_edit_handler_returns E event_message w :
  discord_errors_only E ->
  exists w', _handle_edit_message E event_message w = (Ok tt, w').
Proof.
  intros HE. unfold _handle_edit_message.
  destruct event_message as [msg|]; [| eauto].
  destruct (length _ <? 1)%nat; [eauto |].
  unfold bind.
  destruct (for_each_returns (edit_for E msg)
              (get_matching_forwarders E (peer_channel_id msg))
              (fun f w0 => edit_for_returns E msg f w0 HE) w) as (c & w' & ->).
  eauto.
Qed.

Lemma X11_edit_handler_returns_witness :
  exists w', _handle_edit_message Cases.two_routes_env (Some Cases.edited_5)
                                  Cases.mapped_twice = (Ok tt, w').
Proof.
  apply (X11_edit_handler_returns Cases.two_routes_env (Some Cases.edited_5)
           Cases.mapped_twice).
  repeat split.
  - intros t ch id e. simpl. destruct (Z.eqb id 50); [| discriminate].
    intros H. injection H as <-. reflexivity.
  - discriminate.
  - discriminate.
Defined.

Lemma edit_loop_answered E msg forwarders : forall w,
  destination_answers E ->
  exists w',
    for_each (edit_for E msg) forwarders w = (Ok Next, w') /\
    trace w' = trace w ++ map (fun d => Edited d (tg_text msg))
                              (mapped_ids (mappings w) forwarders (tg_id msg)) /\
    mappings w' = mappings w /\ missed w' = missed w.
Proof.
  intros w HE. revert w. destruct HE as (Hch & Hfetch & Hedit & _).
  induction forwarders as [|f rest IH]; intros w; simpl.
  - eexists. rewrite app_nil_r. repeat split.
  - unfold bind. rewrite edit_for_run. simpl.
    destruct (mappings w !! (forwarder_name f, tg_id msg)) as [id|] eqn:Hmap.
    + destruct (Hch (discord_channel_id f)) as [c ->].
      destruct (Hfetch (clock w) (ch_id c) id) as (m & -> & Hid).
      rewrite message_edit_run, Hedit. simpl.
      set (w2 := mkWorld _ _ _ _).
      destruct (IH w2) as (w' & Hrun & Htr & Hm & Hs).
      exists w'. rewrite Hrun. subst w2. simpl in *.
      rewrite Htr, Hm, Hs, Hid, <- app_assoc. repeat split.
    + destruct (IH w) as (w' & Hrun & Htr & Hm & Hs).
      exists w'. rewrite Hrun.
      replace (match get_channel E (discord_channel_id f) with
               | Some _ | _ => (Ok Next, w) end) with (@Ok Flow Next, w)
        by (destruct (get_channel E (discord_channel_id f)); reflexivity).
      auto.
Qed.

(** X12: when the destination knows its channels, has the messages asked for
    and accepts the edits, an edit event reaches every route that matches
    the channel and has mapped the message, in the order of the routes: the
    mapped destination message gets the text of the source message as it is,
    and nothing else is done. *)
Theorem X12_edit_reaches_every_mapped_route E msg w :
  destination_answers E ->
  exists w',
    _handle_edit_message E (Some msg) w = (Ok tt, w') /\
    trace w' = trace w ++ map (fun d => Edited d (tg_text msg))
                              (mapped_ids (mappings w)
                                 (get_matching_forwarders E (peer_channel_id msg))
                                 (tg_id msg)) /\
    mappings w' = mappings w /\ missed w' = missed w.
Proof.
  intros HE. unfold _handle_edit_message.
  destruct (get_matching_forwarders E (peer_channel_id msg)) as [|f rest] eqn:Hm.
  - simpl. eexists. rewrite app_nil_r. repeat split.
  - cbn [length Nat.ltb Nat.leb]. unfold bind.
    destruct (edit_loop_answered E msg (f :: rest) w HE) as (w' & Hrun & Htr & Hmap & Hmis).
    rewrite Hrun. eauto.
Qed.

Lemma X12_edit_reaches_every_mapped_route_witness :
  exists w',
    _handle_edit_message (Scenario.quiet (Scenario.settings [Scenario.news; Scenario.mirror]))
                         (Some Cases.edited_5) Cases.mapped_twice = (Ok tt, w') /\
    trace w' = trace Cases.mapped_twice
               ++ map (fun d => Edited d "#news corrected") [50; 60] /\
    mappings w' = mappings Cases.mapped_twice /\ missed w' = missed Cases.mapped_twice.
Proof.
  apply (X12_edit_reaches_every_mapped_route
           (Scenario.quiet (Scenario.settings [Scenario.news; Scenario.mirror]))
           Cases.edited_5 Cases.mapped_twice).
  repeat split.
  - intros id. simpl. eauto.
  - intros t ch id. simpl. eauto.
Defined.

(** The turn of one deleted id under one route, by what the destination
    answers. *)
Lemma delete_for_run E f deleted_id w :
  delete_for E f deleted_id w =
  let w1 := mkWorld (S (clock w)) (mappings w) (missed w) (trace w) in
  match mappings w !! (forwarder_name f, deleted_id) with
  | None => (Ok Next, w)
  | Some id =>
      match get_channel E (discord_channel_id f) with
      | None => (Ok Return, w)
      | Some discord_channel =>
          match fetch_message_outcome E (clock w) (ch_id discord_channel) id with
          | inl e => if isinstance e CNotFound then (Ok Return, w1) else (Raise e, w1)
          | inr None =>
              match except_discord_errors (ret Return) (AttributeError "delete") with
              | Some h => h w1
              | None => (Raise (AttributeError "delete"), w1)
              end
          | inr (Some m) =>
              match message_delete E m w1 with
              | (Ok _, w2) => (Ok Next, w2)
              | (Raise e, w2) =>
                  match except_discord_errors (ret Return) e with
                  | Some h => h w2
                  | None => (Raise e, w2)
                  end
              end
          end
      end
  end.
Proof.
  unfold delete_for, bind at 1, History.get_discord_message_id.
  destruct (mappings w !! (forwarder_name f, deleted_id)) as [id|]; [| reflexivity].
  destruct (get_channel E (discord_channel_id f)) as [c|]; [| reflexivity].
  unfold bind at 1, try_except at 1, bind at 1. rewrite fetch_message_run. simpl.
  destruct (fetch_message_outcome E (clock w) (ch_id c) id) as [e|[m|]]; simpl.
  - destruct e; reflexivity.
  - unfold try_except, bind.
    destruct (message_delete E m _) as [[[]|e] w2]; reflexivity.
  - reflexivity.
Qed.

(** X13: around [fetch_message] the delete handler catches not-found only.
    When the first route has mapped the first deleted message and fetching
    its destination message fails in another way, with [Forbidden] say, the
    failure leaves the handler as an exception, where the edit handler
    returns. *)
Theorem X13_delete_handler_raises_fetch_failure E event f rest deleted_id ids id
    discord_channel e w :
  get_matching_forwarders E (del_channel_id event) = f :: rest ->
  deleted_ids event = deleted_id :: ids ->
  mappings w !! (forwarder_name f, deleted_id) = Some id ->
  get_channel E (discord_channel_id f) = Some discord_channel ->
  fetch_message_outcome E (clock w) (ch_id discord_channel) id = inl e ->
  isinstance e CNotFound = false ->
  _handle_deleted_message E event w
  = (Raise e, mkWorld (S (clock w)) (mappings w) (missed w) (trace w)).
Proof.
  intros Hm Hids Hmap Hch Hfetch He.
  unfold _handle_deleted_message. rewrite Hm, Hids.
  cbn [length Nat.ltb Nat.leb for_each]. unfold bind.
  rewrite delete_for_run. cbv zeta. now rewrite Hmap, Hch, Hfetch, He.
Qed.

Lemma X13_delete_handler_raises_fetch_failure_witness :
  _handle_deleted_message Runs.fetch_forbidden_env Cases.delete_5 Cases.mapped_twice
  = (Raise Forbidden, mkWorld 1 (mappings Cases.mapped_twice) [] []).
Proof.
  apply (X13_delete_handler_raises_fetch_failure Runs.fetch_forbidden_env Cases.delete_5
           Scenario.news [Scenario.mirror] 5 [] 50 (mkChannel 10 []) Forbidden
           Cases.mapped_twice); reflexivity.
Defined.

Example edit_handler_returns_on_forbidden_fetch :
  (_handle_edit_message Runs.fetch_forbidden_env (Some Cases.edited_5)
                        Cases.mapped_twice).1 = Ok tt.
Proof. reflexivity. Qed.

Lemma delete_ids_answered E f deleted : forall w,
  destination_answers E ->
  exists w',
    for_each (delete_for E f) deleted w = (Ok Next, w') /\
    trace w' = trace w ++ map Deleted
                              (omap (fun tg => mappings w !! (forwarder_name f, tg)) deleted) /\
    mappings w' = mappings w /\ missed w' = missed w.
Proof.
  intros w HE. revert w. destruct HE as (Hch & Hfetch & _ & Hdelete).
  induction deleted as [|tg rest IH]; intros w; simpl.
  - eexists. rewrite app_nil_r. repeat split.
  - unfold bind. rewrite delete_for_run. simpl.
    destruct (mappings w !! (forwarder_name f, tg)) as [id|] eqn:Hmap.
    + destruct (Hch (discord_channel_id f)) as [c ->].
      destruct (Hfetch (clock w) (ch_id c) id) as (m & -> & Hid).
      rewrite message_delete_run, Hdelete. simpl.
      set (w2 := mkWorld _ _ _ _).
      destruct (IH w2) as (w' & Hrun & Htr & Hm & Hs).
      exists w'. rewrite Hrun. subst w2. simpl in *.
      rewrite Htr, Hm, Hs, Hid, <- app_assoc. repeat split.
    + destruct (IH w) as (w' & Hrun & Htr & Hm & Hs).
      exists w'. rewrite Hrun. auto.
Qed.

Lemma delete_loop_answered E deleted forwarders : forall w,
  destination_answers E ->
  exists w',
    for_each (fun f => for_each (delete_for E f) deleted) forwarders w = (Ok Next, w') /\
    trace w' = trace w ++ map Deleted (mapped_deleted_ids (mappings w) forwarders deleted) /\
    mappings w' = mappings w /\ missed w' = missed w.
Proof.
  intros w HE. revert w.
  induction forwarders as [|f rest IH]; intros w; simpl.
  - eexists. rewrite app_nil_r. repeat split.
  - unfold bind.
    destruct (delete_ids_answered E f deleted w HE) as (w1 & -> & Htr1 & Hm1 & Hs1).
    destruct (IH w1) as (w' & Hrun & Htr & Hm & Hs).
    exists w'. rewrite Hrun, Htr, Hm, Hs, Htr1, Hm1, Hs1.
    unfold mapped_deleted_ids. simpl. rewrite map_app, <- app_assoc. repeat split.
Qed.

(** X14: when the destination knows its channels, has the messages asked for
    and accepts the deletes, a delete event deletes, route by route and in the
    order of the deleted ids, the destination message each route has mapped a
    deleted message to; deleted ids without a mapping are passed over. *)
Theorem X14_delete_reaches_every_mapped_message E event w :
  destination_answers E ->
  exists w',
    _handle_deleted_message E event w = (Ok tt, w') /\
    trace w' = trace w ++ map Deleted
                              (mapped_deleted_ids (mappings w)
                                 (get_matching_forwarders E (del_channel_id event))
                                 (deleted_ids event)) /\
    mappings w' = mappings w /\ missed w' = missed w.
Proof.
  intros HE. unfold _handle_deleted_message.
  destruct (get_matching_forwarders E (del_channel_id event)) as [|f rest] eqn:Hm.
  - simpl. eexists. rewrite app_nil_r. repeat split.
  - cbn [length Nat.ltb Nat.leb]. unfold bind.
    destruct (delete_loop_answered E (deleted_ids event) (f :: rest) w HE)
      as (w' & Hrun & Htr & Hmap & Hmis).
    rewrite Hrun. eauto.
Qed.

Lemma X14_delete_reaches_every_mapped_message_witness :
  exists w',
    _handle_deleted_message
      (Scenario.quiet (Scenario.settings [Scenario.news; Scenario.mirror]))
      (mkDelete [4; 5] 1) Cases.mapped_twice = (Ok tt, w') /\
    trace w' = trace Cases.mapped_twice ++ map Deleted [50; 60] /\
    mappings w' = mappings Cases.mapped_twice /\ missed w' = missed Cases.mapped_twice.
Proof.
  apply (X14_delete_reaches_every_mapped_message
           (Scenario.quiet (Scenario.settings [Scenario.news; Scenario.mirror]))
           (mkDelete [4; 5] 1) Cases.mapped_twice).
  repeat split.
  - intros id. simpl. eauto.
  - intros t ch id. simpl. eauto.
Defined.

(** X15: the edit handler and the delete handler never send a destination
    message and never write a missed-forward record, whatever the
    destination answers. *)
Theorem X15_edit_and_delete_never_send E :
  (forall event_message w,
     sent_messages (trace (_handle_edit_message E event_message w).2)
     = sent_messages (trace w) /\
     missed (_handle_edit_message E event_message w).2 = missed w) /\
  (forall event w,
     sent_messages (trace (_handle_deleted_message E event w).2)
     = sent_messages (trace w) /\
     missed (_handle_deleted_message E event w).2 = missed w).
Proof.
  split.
  - intros event_message w.
    destruct (respects_handle_edit_message E silent event_message w) as (_ & Hs & Ht & _).
    auto.
  - intros event w.
    destruct (respects_handle_deleted_message E silent event w) as (_ & Hs & Ht & _).
    auto.
Qed.

(** ** Startup *)

Lemma register_dialog_spec dialog forwarders : forall entities,
  register_dialog dialog forwarders entities
  = entities ++ repeat (input_channel_of dialog)
                       (length (List.filter (fun f => names_dialog (tg_channel_id f) dialog)
                                            forwarders)).
Proof.
  induction forwarders as [|f rest IH]; intros entities; simpl.
  - now rewrite app_nil_r.
  - destruct (names_dialog (tg_channel_id f) dialog); simpl.
    + rewrite IH, <- app_assoc. reflexivity.
    + apply IH.
Qed.

Lemma iterate_dialogs_spec forwarders dialogs : forall entities,
  iterate_dialogs forwarders dialogs entities
  = entities ++ flat_map (registrations forwarders) dialogs.
Proof.
  induction dialogs as [|d rest IH]; intros entities; simpl.
  - now rewrite app_nil_r.
  - assert (Hd : registrations forwarders d
                 = if is_channel d
                   then repeat (input_channel_of d)
                          (length (List.filter
                                     (fun f => names_dialog (tg_channel_id f) d)
                                     forwarders))
                   else []) by reflexivity.
    rewrite Hd. destruct (is_channel d); simpl.
    + rewrite IH, register_dialog_spec, <- app_assoc. reflexivity.
    + apply IH.
Qed.

(** X17: the registration adds to the entities, in the order of the dialogs,
    the input channel of each channel dialog once per forwarder that names it
    by id or by display name (twice when two forwarders name it), and nothing
    for a dialog that is not a channel, whatever its name. *)
Theorem X17_registered_entities forwarders dialogs entities :
  iterate_dialogs forwarders dialogs entities
  = entities ++ flat_map (registrations forwarders) dialogs.
Proof. apply iterate_dialogs_spec. Qed.

Lemma registrations_nonempty forwarders dialog :
  registrations forwarders dialog <> [] <->
  is_channel dialog = true /\
  exists f, In f forwarders /\ names_dialog (tg_channel_id f) dialog = true.
Proof.
  unfold registrations. destruct (is_channel dialog).
  - split.
    + intros H. split; [reflexivity |].
      destruct (List.filter _ forwarders) as [|f l] eqn:Hf; [now contradict H |].
      assert (Hin : In f (List.filter (fun f => names_dialog (tg_channel_id f) dialog)
                                      forwarders)) by (rewrite Hf; now left).
      apply filter_In in Hin. eauto.
    + intros (_ & f & Hin & Hn).
      assert (Hf : In f (List.filter (fun f => names_dialog (tg_channel_id f) dialog)
                                     forwarders)) by (apply filter_In; auto).
      destruct (List.filter _ forwarders); [destruct Hf | discriminate].
  - split; [intros H; now contradict H | intros [H _]; discriminate H].
Qed.

Lemma flat_map_registrations_nonempty forwarders dialogs :
  flat_map (registrations forwarders) dialogs <> [] <->
  some_channel_named forwarders dialogs.
Proof.
  unfold some_channel_named. induction dialogs as [|d rest IH]; simpl.
  - split; [intros H; now contradict H | intros (? & ? & [] & _)].
  - split.
    + intros H. destruct (registrations forwarders d) as [|x l] eqn:Hd.
      * apply IH in H as (d' & f & Hin & Hf & Hc & Hn). exists d', f. auto.
      * assert (Hne : registrations forwarders d <> []) by (rewrite Hd; discriminate).
        apply registrations_nonempty in Hne as (Hc & f & Hf & Hn). exists d, f. auto.
    + intros (d' & f & [<-|Hin] & Hf & Hc & Hn).
      * assert (Hne : registrations forwarders d <> [])
          by (apply registrations_nonempty; eauto).
        destruct (registrations forwarders d); [now contradict Hne | discriminate].
      * assert (Hne : flat_map (registrations forwarders) rest <> [])
          by (apply IH; exists d', f; auto).
        intros Happ. apply app_eq_nil in Happ as [_ Hrest]. contradiction.
Qed.

(** X18: started with no entity, the registration ends the process with
    exit code 1 exactly when the iteration of the dialogs raised or no channel
    among the dialogs is named by a forwarder; otherwise it returns with the
    registered entities. *)
Theorem X18_registration_exit forwarders dialogs failure :
  (register_connected forwarders dialogs failure [] = SystemExit 1 <->
   failure <> None \/ ~ some_channel_named forwarders dialogs) /\
  (failure = None -> some_channel_named forwarders dialogs ->
   register_connected forwarders dialogs failure []
   = Registered (flat_map (registrations forwarders) dialogs)).
Proof.
  unfold register_connected. rewrite iterate_dialogs_spec. simpl.
  pose proof (flat_map_registrations_nonempty forwarders dialogs) as Hne.
  destruct failure as [ex|].
  - split; [| discriminate].
    destruct ex; simpl; split; auto; intros _; left; discriminate.
  - destruct (flat_map (registrations forwarders) dialogs) as [|x l]; simpl.
    + split.
      * split; [| reflexivity]. intros _. right. intros H. apply Hne in H. now apply H.
      * intros _ H. apply Hne in H. now contradict H.
    + split; [| reflexivity]. split; [discriminate |].
      intros [H|H]; [now contradict H |]. exfalso. apply H, Hne. discriminate.
Qed.

Lemma X18_registration_exit_witness :
  register_connected [Accounts.by_name] Accounts.dialogs None []
  = Registered [mkInputChannel 1 4242].
Proof.
  apply (proj2 (X18_registration_exit [Accounts.by_name] Accounts.dialogs None)).
  - reflexivity.
  - exists (mkDialog "Newsroom" 1 4242 true), Accounts.by_name. simpl. auto.
Defined.

Lemma no_forwarder_by_name E tg_channel :
  (forall f, In f (telegram_forwarders (config E)) -> exists s, tg_channel_id f = ByName s) ->
  get_matching_forwarders E tg_channel = [].
Proof.
  intros Hall. unfold get_matching_forwarders.
  induction (telegram_forwarders (config E)) as [|f rest IH]; [reflexivity |].
  simpl. destruct (Hall f (or_introl eq_refl)) as [s ->]. simpl.
  apply IH. intros g Hg. apply Hall. now right.
Qed.

(** X19: a forwarder that names its source channel by display name is
    registered at startup, so that the events of the channel arrive; but the
    handlers look for the forwarders whose configured channel equals the
    numeric id of the event's channel, which a name never does.  When all
    forwarders are configured by name, no event is ever handled: the three
    handlers return with nothing done. *)
Theorem X19_routes_by_name_register_but_never_match E dialogs dialog f :
  (forall g, In g (telegram_forwarders (config E)) -> exists s, tg_channel_id g = ByName s) ->
  In dialog dialogs -> is_channel dialog = true ->
  In f (telegram_forwarders (config E)) ->
  tg_channel_id f = ByName (dialog_name dialog) ->
  (exists entities,
     register_connected (telegram_forwarders (config E)) dialogs None []
     = Registered entities /\ In (input_channel_of dialog) entities) /\
  (forall msg w, _handle_new_message E msg w = (Ok tt, w)) /\
  (forall event_message w, _handle_edit_message E event_message w = (Ok tt, w)) /\
  (forall event w, _handle_deleted_message E event w = (Ok tt, w)).
Proof.
  intros Hall Hd Hc Hf Hname.
  assert (Hnamed : names_dialog (tg_channel_id f) dialog = true)
    by (rewrite Hname; simpl; apply String.eqb_refl).
  split; [| split; [| split]].
  - exists (flat_map (registrations (telegram_forwarders (config E))) dialogs). split.
    + unfold register_connected. rewrite iterate_dialogs_spec. simpl.
      assert (Hne : flat_map (registrations (telegram_forwarders (config E))) dialogs <> [])
        by (apply flat_map_registrations_nonempty; exists dialog, f; auto).
      destruct (flat_map _ dialogs); [now contradict Hne | reflexivity].
    + apply in_flat_map. exists dialog. split; [exact Hd |].
      unfold registrations. rewrite Hc.
      assert (Hin : In f (List.filter (fun g => names_dialog (tg_channel_id g) dialog)
                                      (telegram_forwarders (config E))))
        by (apply filter_In; auto).
      destruct (List.filter _ _); [destruct Hin | now left].
  - intros msg w. unfold _handle_new_message.
    now rewrite (no_forwarder_by_name E _ Hall).
  - intros [msg|] w; [| reflexivity]. unfold _handle_edit_message.
    now rewrite (no_forwarder_by_name E _ Hall).
  - intros event w. unfold _handle_deleted_message.
    now rewrite (no_forwarder_by_name E _ Hall).
Qed.

Lemma X19_routes_by_name_register_but_never_match_witness :
  (exists entities,
     register_connected [Accounts.by_name] Accounts.dialogs None [] = Registered entities /\
     In (mkInputChannel 1 4242) entities) /\
  _handle_new_message Accounts.by_name_env (Scenario.text_message 9 1 "hello")
                      Scenario.empty_world = (Ok tt, Scenario.empty_world).
Proof.
  destruct (X19_routes_by_name_register_but_never_match Accounts.by_name_env
              Accounts.dialogs (mkDialog "Newsroom" 1 4242 true) Accounts.by_name)
    as (Hreg & Hnew & _).
  - intros g [<-|[]]. eexists. reflexivity.
  - simpl. auto.
  - reflexivity.
  - simpl. auto.
  - reflexivity.
  - split; [exact Hreg | apply Hnew].
Defined.

(** ** The recovery loop while the source is down *)

(** X16: while the internet connection or the Telegram client is unhealthy
    at every moment, the recovery loop asks for nothing and sends nothing:
    each pass is a sleep of the health-check interval and nothing else. *)
Theorem X16_idle_while_source_down E passes : forall w,
  (forall t, internet_connected E t && telegram_is_healthy E t = false) ->
  on_restored_connectivity E passes w
  = (Ok tt, mkWorld (clock w + passes) (mappings w) (missed w)
                    (trace w ++ repeat (Slept (healthcheck_interval (config E))) passes)).
Proof.
  induction passes as [|n IH]; intros w Hdown; simpl.
  - rewrite Nat.add_0_r, app_nil_r. now destruct w.
  - unfold bind. rewrite recovery_pass_run. simpl. rewrite Hdown, sleep_run.
    rewrite IH by exact Hdown. simpl.
    rewrite <- app_assoc. repeat f_equal. lia.
Qed.

Lemma X16_idle_while_source_down_witness :
  on_restored_connectivity Runs.down_env 3 Cases.mapped_100
  = (Ok tt, mkWorld 3 (mappings Cases.mapped_100) [] [Slept 60; Slept 60; Slept 60]).
Proof.
  apply (X16_idle_while_source_down Runs.down_env 3 Cases.mapped_100).
  reflexivity.
Defined.

(** ** Delivery followed by an edit or a delete *)

Lemma map_Sent_inj (a b : list DMessage) : map Sent a = map Sent b -> a = b.
Proof.
  revert b. induction a as [|x a IH]; intros [|y b] H; try discriminate; [reflexivity |].
  simpl in H. injection H as -> H. f_equal. now apply IH.
Qed.

(** X20: after a delivery in one or several parts, the route has mapped the
    source message to the first part: with a destination that answers, an
    edit of the source message edits the first part and a delete of it
    deletes the first part, and the other parts are left as they were sent. *)
Theorem X20_edit_and_delete_reach_first_part E msg f mention hashtags w w1 main rest :
  destination_answers E ->
  forward_on_route E msg f mention hashtags w = (Ok tt, w1) ->
  trace w1 = trace w ++ map Sent (main :: rest) ->
  (forall edited, tg_id edited = tg_id msg ->
     exists w2, edit_for E edited f w1 = (Ok Next, w2) /\
                trace w2 = trace w1 ++ [Edited (dm_id main) (tg_text edited)]) /\
  (exists w2, delete_for E f (tg_id msg) w1 = (Ok Next, w2) /\
              trace w2 = trace w1 ++ [Deleted (dm_id main)]).
Proof.
  intros (Hch & Hfetch & Hedit & Hdelete) Hrun Htr.
  apply forward_on_route_Ok in Hrun as (sent & Htr' & Hrec).
  rewrite Htr in Htr'. apply app_inv_head, map_Sent_inj in Htr'. subst sent.
  destruct Hrec as [Hmap _].
  assert (Hkey : mappings w1 !! (forwarder_name f, tg_id msg) = Some (dm_id main))
    by (rewrite Hmap; apply lookup_insert_eq).
  split.
  - intros edited Hid. rewrite edit_for_run. cbv zeta. rewrite Hid, Hkey.
    destruct (Hch (discord_channel_id f)) as [c ->].
    destruct (Hfetch (clock w1) (ch_id c) (dm_id main)) as (m & -> & Hm).
    rewrite message_edit_run, Hedit, Hm. eexists. split; reflexivity.
  - rewrite delete_for_run. cbv zeta. rewrite Hkey.
    destruct (Hch (discord_channel_id f)) as [c ->].
    destruct (Hfetch (clock w1) (ch_id c) (dm_id main)) as (m & -> & Hm).
    rewrite message_delete_run, Hdelete, Hm. eexists. split; reflexivity.
Qed.

Lemma X20_edit_and_delete_reach_first_part_witness :
  (forall edited, tg_id edited = 7 ->
     exists w2, edit_for Cases.two_parts_env edited Scenario.news (Cases.two_parts_run).2
                = (Ok Next, w2) /\
                trace w2 = trace (Cases.two_parts_run).2 ++ [Edited 1001 (tg_text edited)]) /\
  (exists w2, delete_for Cases.two_parts_env Scenario.news 7 (Cases.two_parts_run).2
              = (Ok Next, w2) /\
              trace w2 = trace (Cases.two_parts_run).2 ++ [Deleted 1001]).
Proof.
  apply (X20_edit_and_delete_reach_first_part Cases.two_parts_env Cases.long_news
           Scenario.news false (Some ["#news"]) Scenario.empty_world (Cases.two_parts_run).2
           (mkDM 1001 10 "part one" None) [mkDM 1002 10 "part two" None]).
  - repeat split.
    + intros id. simpl. eauto.
    + intros t ch id. simpl. eauto.
  - reflexivity.
  - reflexivity.
Defined.

(** ** One event, several routes *)

Lemma send_parts_answers E ch reference parts : forall acc w,
  (forall t ch content file reference,
     exists id, send_outcome E t ch content file reference = inr id) ->
  exists sent w', send_parts E ch reference parts acc w = (Ok sent, w').
Proof.
  intros acc w Hsend. revert acc w.
  induction parts as [|part rest IH]; intros acc w; simpl.
  - eauto.
  - unfold bind. rewrite channel_send_run.
    destruct (Hsend (clock w) ch part None reference) as [id ->]. simpl. apply IH.
Qed.

Lemma should_forward_any_local E f msg h1 h2 :
  should_forward (routing_decision E f msg h1)
  = should_forward (routing_decision E f msg h2).
Proof.
  unfold routing_decision.
  destruct (negb (forward_everything f) || truthy_dict (mention_override f)).
  - reflexivity.
  - destruct (truthy_list (excluded_hashtags f)); reflexivity.
Qed.

Lemma hashtags_local_bound E f msg h :
  is_Some (hashtags_local (routing_decision E f msg (Some h))).
Proof.
  unfold routing_decision.
  destruct (negb (forward_everything f) || truthy_dict (mention_override f)); simpl.
  - destruct (0 <? _)%nat; destruct (truthy_list (excluded_hashtags f)); simpl; eauto;
      destruct (0 <? _)%nat; simpl; eauto.
  - destruct (truthy_list (excluded_hashtags f)); simpl; eauto.
    destruct (0 <? _)%nat; simpl; eauto.
Qed.

Lemma hashtags_local_consulted E f msg hashtags :
  consults_hashtags f = true ->
  is_Some (hashtags_local (routing_decision E f msg hashtags)).
Proof.
  unfold routing_decision, consults_hashtags.
  destruct (negb (forward_everything f) || truthy_dict (mention_override f)); simpl.
  - intros _. destruct (0 <? _)%nat; destruct (truthy_list (excluded_hashtags f));
      simpl; eauto; destruct (0 <? _)%nat; simpl; eauto.
  - intros ->. destruct (0 <? _)%nat; simpl; eauto.
Qed.

(** A route that reads the hashtags decides the same whatever the routes
    before it left in the local. *)
Lemma routing_decision_consulted E f msg h1 h2 :
  consults_hashtags f = true ->
  routing_decision E f msg h1 = routing_decision E f msg h2.
Proof.
  unfold routing_decision, consults_hashtags.
  destruct (negb (forward_everything f) || truthy_dict (mention_override f)); simpl.
  - reflexivity.
  - intros ->. reflexivity.
Qed.

(** With collaborators that answer, a route step on a plain text message
    sends the parts to the channel of the route and maps the message to the
    first of them. *)
Lemma forward_on_route_answers E msg f mention h w discord_channel :
  collaborators_answer E ->
  tg_media msg = false -> reply_to_msg_id msg = None ->
  get_channel E (discord_channel_id f) = Some discord_channel ->
  exists w1 main rest,
    forward_on_route E msg f mention (Some h) w = (Ok tt, w1) /\
    trace w1 = trace w ++ map Sent (main :: rest) /\
    Forall (fun m => dm_channel m = ch_id discord_channel) (main :: rest) /\
    mappings w1 = <[(forwarder_name f, tg_id msg) := dm_id main]> (mappings w).
Proof.
  intros (_ & Htext & Hsplit & Hsend) Hmedia Hreply Hch.
  unfold forward_on_route. unfold bind at 1. rewrite Hch. simpl.
  unfold bind at 1. simpl. unfold bind at 1. simpl. unfold bind at 1.
  destruct (Htext (clock w) msg f mention
              (get_mention_roles E h (mention_override f) (built_in_roles (config E))
                                 (guild_roles discord_channel))
              (openai_enabled (config E))) as [text ->].
  simpl. unfold bind at 1. rewrite Hreply. simpl.
  set (w0 := mkWorld (S (clock w)) (mappings w) (missed w) (trace w)).
  unfold deliver_and_record, deliver, forward_to_discord. rewrite Hmedia.
  destruct (send_parts_answers E (ch_id discord_channel) None (split_message E text) [] w0
              Hsend) as (sent & w1 & Hrun).
  unfold bind. rewrite Hrun.
  apply send_parts_run in Hrun as (s & Htr & Hmap & Hmis & Hall & _ & Hs & Hlen).
  simpl in Hs. subst s.
  destruct sent as [|main rest].
  - exfalso. apply (Hsplit text). destruct (split_message E text); [reflexivity |].
    discriminate Hlen.
  - simpl. eexists _, main, rest. split; [reflexivity |]. simpl.
    rewrite Htr, Hmap. repeat split.
    eapply Forall_impl; [exact Hall |]. intros m [_ Hm]. exact Hm.
Qed.

Lemma new_message_loop_answers E msg forwarders : forall h w,
  collaborators_answer E ->
  tg_media msg = false -> reply_to_msg_id msg = None ->
  exists w' sent,
    new_message_loop E msg forwarders (Some h) w = (Ok tt, w') /\
    trace w' = trace w ++ map Sent sent /\
    (forall k, is_Some (mappings w !! k) -> is_Some (mappings w' !! k)) /\
    forall f, In f forwarders ->
      should_forward (routing_decision E f msg None) = true ->
      is_Some (mappings w' !! (forwarder_name f, tg_id msg)) /\
      exists discord_channel m,
        get_channel E (discord_channel_id f) = Some discord_channel /\
        In m sent /\ dm_channel m = ch_id discord_channel.
Proof.
  intros h w HE Hmedia Hreply. revert h w.
  induction forwarders as [|f rest IH]; intros h w; simpl.
  - exists w, []. simpl. rewrite app_nil_r.
    split; [reflexivity |]. split; [reflexivity |]. split; [auto |]. intros g [].
  - unfold bind at 1. unfold handle_new_message_for.
    destruct (hashtags_local_bound E f msg h) as [h' Hh'].
    destruct (should_forward (routing_decision E f msg (Some h))) eqn:Hsf; simpl.
    + destruct HE as (Hch & HE').
      destruct (Hch (discord_channel_id f)) as [c Hc].
      rewrite Hh'.
      destruct (forward_on_route_answers E msg f
                  (decided_mention_everyone (routing_decision E f msg (Some h))) h' w c
                  (conj Hch HE') Hmedia Hreply Hc)
        as (w1 & main & more & Hrun & Htr1 & Hall & Hmap1).
      unfold bind at 1. rewrite Hrun. simpl.
      destruct (IH h' w1) as (w' & sent & Hloop & Htr & Hkeep & Hroutes).
      exists w', ((main :: more) ++ sent). split; [exact Hloop |]. split.
      { rewrite Htr, Htr1, map_app, <- app_assoc. reflexivity. }
      split.
      { intros k Hk. apply Hkeep. rewrite Hmap1.
        destruct (decide ((forwarder_name f, tg_id msg) = k)) as [<-|Hne].
        - rewrite lookup_insert_eq. eauto.
        - now rewrite lookup_insert_ne. }
      intros g [<-|Hg] Hfw.
      * split.
        -- apply Hkeep. rewrite Hmap1, lookup_insert_eq. eauto.
        -- exists c, main. split; [exact Hc |]. split; [now left |].
           now inversion Hall.
      * destruct (Hroutes g Hg Hfw) as (Hsome & c' & m & Hc' & Hin & Hm).
        split; [exact Hsome |]. exists c', m. split; [exact Hc' |].
        split; [| exact Hm]. apply in_or_app. now right.
    + rewrite Hh'.
      destruct (IH h' w) as (w' & sent & Hloop & Htr & Hkeep & Hroutes).
      exists w', sent. split; [exact Hloop |]. split; [exact Htr |].
      split; [exact Hkeep |].
      intros g [<-|Hg] Hfw.
      * rewrite (should_forward_any_local E f msg None (Some h)) in Hfw. congruence.
      * now apply Hroutes.
Qed.

(** X21: when nothing fails on the way (the destination knows every channel,
    the text is processed and splits into one part at least, every send is
    accepted) and the first matching route reads the hashtags, a plain text
    message that is not a reply is delivered on every matching route that
    decides to forward it: the handler returns, all it has done is to send,
    a message was sent to the channel of each such route, and each such
    route has a mapping for the source message. *)
Theorem X21_delivered_on_every_forwarding_route E msg first rest w :
  collaborators_answer E ->
  tg_media msg = false -> reply_to_msg_id msg = None ->
  get_matching_forwarders E (peer_channel_id msg) = first :: rest ->
  consults_hashtags first = true ->
  exists w' sent,
    _handle_new_message E msg w = (Ok tt, w') /\
    trace w' = trace w ++ map Sent sent /\
    forall f, In f (first :: rest) ->
      should_forward (routing_decision E f msg None) = true ->
      is_Some (mappings w' !! (forwarder_name f, tg_id msg)) /\
      exists discord_channel m,
        get_channel E (discord_channel_id f) = Some discord_channel /\
        In m sent /\ dm_channel m = ch_id discord_channel.
Proof.
  intros HE Hmedia Hreply Hm Hfirst.
  unfold _handle_new_message. rewrite Hm. cbn [length Nat.ltb Nat.leb].
  destruct (hashtags_local_consulted E first msg None Hfirst) as [h Hh].
  assert (Hsame : new_message_loop E msg (first :: rest) None w
                  = new_message_loop E msg (first :: rest) (Some h) w).
  { simpl. unfold handle_new_message_for.
    now rewrite (routing_decision_consulted E first msg None (Some h) Hfirst). }
  rewrite Hsame.
  destruct (new_message_loop_answers E msg (first :: rest) h w HE Hmedia Hreply)
    as (w' & sent & Hloop & Htr & _ & Hroutes).
  exists w', sent. auto.
Qed.

Lemma X21_delivered_on_every_forwarding_route_witness :
  exists w' sent,
    _handle_new_message Cases.two_routes_env Cases.long_news Scenario.empty_world
    = (Ok tt, w') /\
    trace w' = trace Scenario.empty_world ++ map Sent sent /\
    forall f, In f [Scenario.news; Scenario.mirror] ->
      should_forward (routing_decision Cases.two_routes_env f Cases.long_news None) = true ->
      is_Some (mappings w' !! (forwarder_name f, tg_id Cases.long_news)) /\
      exists discord_channel m,
        get_channel Cases.two_routes_env (discord_channel_id f) = Some discord_channel /\
        In m sent /\ dm_channel m = ch_id discord_channel.
Proof.
  apply (X21_delivered_on_every_forwarding_route Cases.two_routes_env Cases.long_news
           Scenario.news [Scenario.mirror] Scenario.empty_world).
  - repeat split.
    + intros id. simpl. eauto.
    + intros t msg f mention roles ai. simpl. eauto.
    + intros text. discriminate.
    + intros t ch content file reference. simpl. eauto.
  - reflexivity.
  - reflexivity.
  - reflexivity.
  - reflexivity.
Defined.
